(** * CityLink: edge list, transitive closure and path reconstruction

    A shallow embedding of the three computational functions of
    [cityLink.c] -- [createRList], [createTransClosure] and [findPath] --
    together with the properties of the reachability engine, and of the
    functions around them that read the table and show the results:
    [readFromFile], [printNeighbTable], [printTransClosure] and
    [writeFile].  [readArguments] rests on [getopt] and is left out, and
    so is [main], whose chain of calls is followed in the last section.

    Representation.  The C program keeps a relation in a flat [int] array
    [R] of [sizeOfR] cells, the k-th pair being [(R[2k], R[2k+1])]; every
    loop over [R] steps by two.  Here the array is the list of its pairs,
    so [sizeOfR = 2 * length R], and cities are [Z] (C [int]; the program
    only compares them).  Sizes and indices are natural numbers, not
    bounded by [INT_MAX].

    Allocation.  [malloc] and [realloc] may return [NULL]; the functions
    then give up and return [NULL] (or [false]).  The allocator is a
    parameter [alloc_ok] telling whether a request for a given number of
    [int] cells is served, and a refused request is the outcome
    [Err AllocError].

    Loops.  The two [while] loops of the program carry no bound, so their
    models take a number of iterations they may use, and running out of it
    is the outcome [Err OutOfFuel]. *)

From Stdlib Require Import ZArith List Bool Arith Lia.
From Stdlib Require String Ascii DecimalString.
Import ListNotations.
Import String.StringSyntax Ascii.AsciiSyntax.

Open Scope Z_scope.
Delimit Scope string_scope with string.
Delimit Scope char_scope with char.

Infix "+++" := String.append (at level 60, right associativity).

(** ** Outcomes *)

Inductive error : Type :=
| AllocError    (* malloc or realloc returned NULL *)
| OutOfBounds   (* an access outside the allocated block *)
| OutOfFuel.    (* the loop was still running when the fuel ran out *)

Inductive result (A : Type) : Type :=
| Ok (a : A)
| Err (e : error).

Arguments Ok {A} a.
Arguments Err {A} e.

Definition bind {A B : Type} (r : result A) (k : A -> result B) : result B :=
  match r with
  | Ok a => k a
  | Err e => Err e
  end.

Notation "x <- r ;; k" := (bind r (fun x => k))
  (at level 61, r at next level, right associativity).

(** ** Edges *)

Definition edge : Type := (Z * Z)%type.

(** [R[k] == u && R[k+1] == w] *)
Definition edge_is (u w : Z) (e : edge) : bool :=
  (fst e =? u) && (snd e =? w).

(** The linear scans of [R] for a pair: they set a flag at every match and
    never leave the loop early. *)
Definition has_edge (R : list edge) (u w : Z) : bool :=
  existsb (edge_is u w) R.

(** [sizeOfR], the number of cells of the array. *)
Definition sizeOfR (R : list edge) : nat := 2 * length R.

(** No pair [(a,a)]. *)
Definition irreflexive (R : list edge) : Prop :=
  forall a b, In (a, b) R -> a <> b.

(** The allocator that never refuses. *)
Definition alloc_always : nat -> bool := fun _ => true.

Section Engine.

(** [alloc_ok n]: a request for [n] cells of type [int] is served. *)
Variable alloc_ok : nat -> bool.

(** ** createRList *)

(** [A[i][j]], when row [i] and column [j] exist. *)
Definition cell (A : list (list Z)) (i j : nat) : option Z :=
  match nth_error A i with
  | Some row => nth_error row j
  | None => None
  end.

(** [*p = i; p++; *p = j; p++;] on a block of [cap] pairs of which
    [length buf] are written: a store past the end of the block is
    undefined in C and is the outcome [Err OutOfBounds] here. *)
Definition store_pair (cap : nat) (buf : list edge) (i j : nat)
  : result (list edge) :=
  if (length buf <? cap)%nat
  then Ok (buf ++ [(Z.of_nat i, Z.of_nat j)])
  else Err OutOfBounds.

(** Body of the inner [for]: [if (A[i][j] == 1) { ... }]. *)
Definition scan_cell (A : list (list Z)) (cap i : nat)
  (st : result (list edge)) (j : nat) : result (list edge) :=
  buf <- st ;;
  match cell A i j with
  | None => Err OutOfBounds
  | Some a => if a =? 1 then store_pair cap buf i j else Ok buf
  end.

(** Body of the outer [for]: one row. *)
Definition scan_row (A : list (list Z)) (N cap : nat)
  (st : result (list edge)) (i : nat) : result (list edge) :=
  fold_left (scan_cell A cap i) (seq 0 N) st.

(** [createRList]: a block of [2*(N*N-N)] cells is allocated, the matrix
    is scanned, and the block is shrunk to [2*neihbourCount] cells. *)
Definition createRList (A : list (list Z)) (N : nat) : result (list edge) :=
  let cap := (N * N - N)%nat in
  if alloc_ok (2 * cap) then
    buf <- fold_left (scan_row A N cap) (seq 0 N) (Ok []) ;;
    if alloc_ok (sizeOfR buf) then Ok buf else Err AllocError
  else Err AllocError.

(** ** createTransClosure *)

(** Body of the innermost [for (j...)] for the pair [(u,v)] of the outer
    loop and the pair [e = (y,w)]; the state is the current [R] and the
    flag [changed]. *)
Definition compose (u v : Z) (st : result (list edge * bool)) (e : edge)
  : result (list edge * bool) :=
  s <- st ;;
  let (R, changed) := s in
  let (y, w) := e in
  if (y =? v) && negb (u =? w) then
    let alreadyExists :=
      if negb (u =? y) && negb (v =? w) then has_edge R u w else false in
    if alreadyExists then Ok (R, changed)
    else if alloc_ok (sizeOfR R + 2) then Ok (R ++ [(u, w)], true)
    else Err AllocError
  else Ok (R, changed).

(** Body of the [for (j...)] loop: [y = R[j]; w = R[j+1];] read in the
    current array, then the test above. *)
Definition inner_at (u v : Z) (st : result (list edge * bool)) (j : nat)
  : result (list edge * bool) :=
  s <- st ;;
  match nth_error (fst s) j with
  | Some e => compose u v (Ok s) e
  | None => Err OutOfBounds
  end.

(** Body of the [for (i...)] loop: [u = R[i]; v = R[i+1];] read in the
    current array, then the inner loop over the pairs below
    [initialSize] (counted in pairs here). *)
Definition outer_at (initialSize : nat) (st : result (list edge * bool))
  (i : nat) : result (list edge * bool) :=
  s <- st ;;
  match nth_error (fst s) i with
  | Some (u, v) => fold_left (inner_at u v) (seq 0 initialSize) (Ok s)
  | None => Err OutOfBounds
  end.

(** One iteration of [while (changed)]. *)
Definition closure_pass (R : list edge) : result (list edge * bool) :=
  let initialSize := length R in
  fold_left (outer_at initialSize) (seq 0 initialSize) (Ok (R, false)).

(** [createTransClosure], with [fuel] passes at most. *)
Fixpoint createTransClosure (fuel : nat) (R : list edge)
  : result (list edge) :=
  match fuel with
  | O => Err OutOfFuel
  | S fuel' =>
      s <- closure_pass R ;;
      let (R', changed) := s in
      if changed then createTransClosure fuel' R' else Ok R'
  end.

(** ** findPath *)

(** The variables of the walk: the array [Path], the city [startCity]
    the walk stands on (which is not yet in [Path]), and [pathComplete]. *)
Record walk : Type := mkWalk {
  path : list Z;
  current : Z;
  pathComplete : bool
}.

Inductive answer : Type :=
| PathFound (p : list Z)   (* "Yes path exists!" and the path; true *)
| NoPath.                  (* "No Path Exists!"; false *)

(** The first [for] after the reachability test: the first pair leaving
    [startCity] opens the path. *)
Fixpoint first_hop (R : list edge) (startCity targetCity : Z)
  : result walk :=
  match R with
  | [] => Ok (mkWalk [] startCity false)
  | (a, b) :: R' =>
      if a =? startCity then
        if alloc_ok 1 then
          if b =? targetCity then
            if alloc_ok 2
            then Ok (mkWalk [startCity; targetCity] b true)
            else Err AllocError
          else Ok (mkWalk [startCity] b false)
        else Err AllocError
      else first_hop R' startCity targetCity
  end.

(** Body of the [for] inside [while (!pathComplete)]; [break] is the
    state with [pathComplete] set, on which the rest of the scan does
    nothing. *)
Definition hop (targetCity : Z) (st : result walk) (e : edge)
  : result walk :=
  s <- st ;;
  if pathComplete s then Ok s
  else
    let (a, b) := e in
    if a =? current s then
      let nextTargetAlreadyInPath := existsb (Z.eqb b) (path s) in
      if nextTargetAlreadyInPath then Ok s
      else if alloc_ok (length (path s) + 1) then
        let Path := path s ++ [current s] in
        if b =? targetCity then
          if alloc_ok (length Path + 1)
          then Ok (mkWalk (Path ++ [targetCity]) b true)
          else Err AllocError
        else Ok (mkWalk Path b false)
      else Err AllocError
    else Ok s.

(** [while (!pathComplete) { for (...) ... }], with [fuel] scans at most. *)
Fixpoint walk_loop (fuel : nat) (R : list edge) (targetCity : Z) (s : walk)
  : result walk :=
  if pathComplete s then Ok s
  else
    match fuel with
    | O => Err OutOfFuel
    | S fuel' =>
        s' <- fold_left (hop targetCity) R (Ok s) ;;
        walk_loop fuel' R targetCity s'
    end.

(** [findPath] *)
Definition findPath (fuel : nat) (R : list edge) (startCity targetCity : Z)
  : result answer :=
  let found := has_edge R startCity targetCity in
  if negb found then Ok NoPath
  else
    s <- first_hop R startCity targetCity ;;
    s' <- walk_loop fuel R targetCity s ;;
    Ok (PathFound (path s')).

End Engine.

(** ** Text in and out: readFromFile, printNeighbTable,
       printTransClosure, writeFile

    A text is a [string].  The content of the input file is the text
    that [fgetc] consumes; what [printf] and [fprintf] write is the text
    returned. *)

(** ["\n"] *)
Definition nl : String.string :=
  String.String (Ascii.ascii_of_nat 10) String.EmptyString.

(** [printf("%d", z)] *)
Definition dec (z : Z) : String.string :=
  DecimalString.NilZero.string_of_int (Z.to_int z).

(** [fgetc]: the code of the next character, and [EOF], which is -1,
    once the text is consumed. *)
Definition fgetc (fp : String.string) : Z * String.string :=
  match fp with
  | String.EmptyString => (-1, String.EmptyString)
  | String.String c rest => (Z.of_N (Ascii.N_of_ascii c), rest)
  end.

(** The array seen cell by cell: [R[2k]], [R[2k+1]] are the ends of the
    k-th pair. *)
Definition flat (R : list edge) : list Z :=
  flat_map (fun e => [fst e; snd e]) R.

Inductive file_read : Type :=
| Matrix (A : list (list Z)) (N : Z)   (* true, with the table and its size *)
| CannotRead.                          (* "Input file can not be read!" *)

(** What [writeFile] leaves behind: the text on the console, the file it
    has written (name and content), and the value returned. *)
Record written : Type := mkWritten {
  console : String.string;
  file : option (String.string * String.string);
  returned : bool
}.

Section TextIO.

(** [alloc_ok n]: a request for [n] cells of type [int] is served. *)
Variable alloc_ok : nat -> bool.

(** [alloc_rows N]: the [malloc] of [N] row pointers, with [N] the [int]
    read from the file, returns a block. *)
Variable alloc_rows : Z -> bool.

(** [alloc_bytes n]: a request for [n] characters is served. *)
Variable alloc_bytes : nat -> bool.

(** [fopen_w name]: [fopen(name, "w")] opens the file. *)
Variable fopen_w : String.string -> bool.

(** *** readFromFile *)

(** Body of the inner [for] of the reading loop:
    [k = fgetc(fp); A[i][j] = k-'0'; fgetc(fp);].  The rows are filled
    from left to right, so the store at [j] is the next cell of the row;
    [row_ok] tells whether the row was allocated, and the store through a
    null row is the outcome [Err OutOfBounds]. *)
Definition read_cell (row_ok : bool)
  (st : result (list Z * String.string)) (j : nat)
  : result (list Z * String.string) :=
  s <- st ;;
  let (row, fp) := s in
  let (k, fp1) := fgetc fp in
  if row_ok then
    let (_, fp2) := fgetc fp1 in Ok (row ++ [k - 48], fp2)
  else Err OutOfBounds.

(** Body of the outer [for] of the reading loop: one row. *)
Definition read_row (row_ok : bool) (N : nat)
  (st : result (list (list Z) * String.string)) (i : nat)
  : result (list (list Z) * String.string) :=
  s <- st ;;
  let (A, fp) := s in
  r <- fold_left (read_cell row_ok) (seq 0 N) (Ok ([], fp)) ;;
  let (row, fp') := r in
  Ok (A ++ [row], fp').

(** [readFromFile]; [content] is [None] when [fopen] fails.  The size is
    the first character minus ['0'] (48).  The test after each
    [malloc] of a row looks at the table, which is not null there, so a row
    that could not be allocated goes unnoticed until it is written. *)
Definition readFromFile (content : option String.string)
  : result file_read :=
  match content with
  | None => Ok CannotRead
  | Some fp =>
      let (c, fp1) := fgetc fp in
      let N := c - 48 in
      if alloc_rows N then
        let row_ok := alloc_ok (Z.to_nat N) in
        let (_, fp2) := fgetc fp1 in
        s <- fold_left (read_row row_ok (Z.to_nat N)) (seq 0 (Z.to_nat N))
                       (Ok ([], fp2)) ;;
        Ok (Matrix (fst s) N)
      else Err AllocError
  end.

(** *** printNeighbTable *)

(** [printf("%d ", A[i][j])] *)
Definition print_cell (A : list (list Z)) (i : nat)
  (st : result String.string) (j : nat) : result String.string :=
  out <- st ;;
  match cell A i j with
  | Some a => Ok (out +++ dec a +++ " "%string)
  | None => Err OutOfBounds
  end.

(** One row, and the end of its line. *)
Definition print_row (A : list (list Z)) (N : nat)
  (st : result String.string) (i : nat) : result String.string :=
  out <- fold_left (print_cell A i) (seq 0 N) st ;;
  Ok (out +++ nl).

(** [printNeighbTable]: the text it prints. *)
Definition printNeighbTable (A : list (list Z)) (N : nat)
  : result String.string :=
  out <- fold_left (print_row A N) (seq 0 N)
                   (Ok ("Neighbor table"%string +++ nl)) ;;
  Ok (out +++ nl).

(** *** printTransClosure and writeFile *)

(** Body of the loop that both functions run over the cells of the
    array: a line break before every even cell but the first, an arrow
    before every odd one, then the cell. *)
Definition table_item (F : list Z) (st : result String.string) (i : nat)
  : result String.string :=
  out <- st ;;
  let out1 :=
    if ((i mod 2 =? 0) && (0 <? i))%nat then out +++ nl
    else if (0 <? i)%nat then out +++ " -> "%string
    else out in
  match nth_error F i with
  | Some a => Ok (out1 +++ dec a)
  | None => Err OutOfBounds
  end.

Definition table_items (R : list edge) (out : String.string)
  : result String.string :=
  fold_left (table_item (flat R)) (seq 0 (sizeOfR R)) (Ok out).

(** [printTransClosure]: the text it prints. *)
Definition printTransClosure (R : list edge) : result String.string :=
  out <- table_items R (nl +++ "R* Table"%string +++ nl) ;;
  Ok (out +++ nl).

(** [writeFile] *)
Definition writeFile (R : list edge) (inFileName : String.string)
  : result written :=
  let str := "out-"%string in
  if alloc_bytes (String.length str + String.length inFileName + 1) then
    let outFileName := str +++ inFileName in
    if fopen_w outFileName then
      out <- table_items R ("R* Table"%string +++ nl) ;;
      Ok (mkWritten ("Saving "%string +++ outFileName +++ "..."%string +++ nl)
                    (Some (outFileName, out +++ nl +++ nl))
                    true)
    else Ok (mkWritten ("Error opening file"%string +++ nl) None false)
  else Ok (mkWritten ("Error: Can't write in out-"%string +++ inFileName)
                     None false).

End TextIO.

(** ** Auxiliary notions used by the statements *)

(** A pass only writes at the end of the array, so the pairs it reads
    below [initialSize] are those of the array [R0] it started with: the
    two loops, as loops over the pairs of [R0]. *)
Definition compose_all (alloc_ok : nat -> bool) (R0 : list edge)
  (st : result (list edge * bool)) (e : edge) : result (list edge * bool) :=
  let (u, v) := e in fold_left (compose alloc_ok u v) R0 st.

Definition closure_sweep (alloc_ok : nat -> bool) (R0 : list edge)
  : result (list edge * bool) :=
  fold_left (compose_all alloc_ok R0) R0 (Ok (R0, false)).

(** The state of a pass begun on [R0]: a failure, or [R0] with pairs
    appended. *)
Definition extends (R0 : list edge) (st : result (list edge * bool)) : Prop :=
  match st with
  | Ok (R, _) => exists added, R = R0 ++ added
  | Err _ => True
  end.

(** The condition under which the body of the innermost loop appends
    [(u,w)] when it meets [(u,v)] and [(y,w)] with current array [R]. *)
Definition wants (R : list edge) (u v y w : Z) : bool :=
  (y =? v) && negb (u =? w) &&
  negb (negb (u =? y) && negb (v =? w) && has_edge R u w).

(** Two pairs [(u,v)], [(v,w)] with [u <> w] one of which is a self-pair
    at the shared city: for them the scan for duplicates is skipped. *)
Definition unchecked (R : list edge) : Prop :=
  exists u v w, In (u, v) R /\ In (v, w) R /\ u <> w /\ (u = v \/ v = w).

(** Every two neighbours in [p] are a pair of [R]. *)
Definition consecutive_in (R : list edge) (p : list Z) : Prop :=
  forall i a b,
    nth_error p i = Some a -> nth_error p (S i) = Some b -> In (a, b) R.

(** The cities the walk has gone through, in order: [Path], followed by
    the city it stands on as long as that one is not stored yet. *)
Definition trail (s : walk) : list Z :=
  if pathComplete s then path s else path s ++ [current s].

(** What the walk of [findPath] keeps true. *)
Definition walk_inv (R : list edge) (startCity targetCity : Z) (s : walk)
  : Prop :=
  hd_error (trail s) = Some startCity /\
  consecutive_in R (trail s) /\
  ((forall c, In c (trail s) -> ~ In (c, c) R) -> NoDup (trail s)) /\
  (pathComplete s = true ->
   nth_error (trail s) (length (trail s) - 1) = Some targetCity).

(** The matrices [createRList] is meant for: [N] rows of [N] cells. *)
Definition square (A : list (list Z)) (N : nat) : Prop :=
  length A = N /\ Forall (fun row => length row = N) A.

(** [A[i][j] == 1] *)
Definition is_one (A : list (list Z)) (ij : nat * nat) : bool :=
  match cell A (fst ij) (snd ij) with
  | Some a => a =? 1
  | None => false
  end.

Definition to_edge (ij : nat * nat) : edge :=
  (Z.of_nat (fst ij), Z.of_nat (snd ij)).

(** The cells of the matrix in row-major order, and those equal to 1
    among them, as pairs. *)
Definition row_major (N : nat) : list (nat * nat) :=
  list_prod (seq 0 N) (seq 0 N).

Definition ones_row_major (A : list (list Z)) (N : nat) : list edge :=
  map to_edge (filter (is_one A) (row_major N)).

(** The number of cells equal to 1. *)
Definition count_ones (A : list (list Z)) : nat :=
  list_sum (map (fun row => length (filter (fun a => a =? 1) row)) A).

(** The cities of an edge list, the pairs over a set of cities [V]
    that an array [R] does not hold yet, and the arrays that stay within
    [V]. *)
Definition cities (E : list edge) : list Z := map fst E ++ map snd E.

Definition missing (V : list Z) (R : list edge) : nat :=
  length (filter (fun p => negb (has_edge R (fst p) (snd p)))
                 (list_prod V V)).

Definition within (V : list Z) (R : list edge) : Prop :=
  forall a b, In (a, b) R -> In a V /\ In b V.

(** [b] can be reached from [a] along one or more pairs of [E]. *)
Inductive reachable (E : list edge) : Z -> Z -> Prop :=
| reach_edge a b : In (a, b) E -> reachable E a b
| reach_step a x b : In (a, x) E -> reachable E x b -> reachable E a b.

(** The walk of a query from a city [a] to itself: it has the path
    [a; a] at once, or it has [a] behind it and is not complete. *)
Definition home_inv (a : Z) (s : walk) : Prop :=
  (pathComplete s = true /\ path s = [a; a]) \/
  (pathComplete s = false /\ In a (path s)).

(** The value that [readFromFile] gives a character. *)
Definition digit (c : Ascii.ascii) : Z := Z.of_N (Ascii.N_of_ascii c) - 48.

(** The layout [readFromFile] expects after the first line: for every
    cell, one character for the cell and one character after it. *)
Definition row_text (row : list (Ascii.ascii * Ascii.ascii))
  : String.string :=
  fold_right (fun p t => String.String (fst p) (String.String (snd p) t))
             String.EmptyString row.

Definition rows_text (rows : list (list (Ascii.ascii * Ascii.ascii)))
  : String.string :=
  fold_right (fun row t => row_text row +++ t) String.EmptyString rows.

(** Texts one after the other. *)
Definition cat (l : list String.string) : String.string :=
  fold_right String.append String.EmptyString l.

(** A row of the neighbour table as [printNeighbTable] shows it. *)
Definition row_line (row : list Z) : String.string :=
  cat (map (fun a => dec a +++ " "%string) row) +++ nl.

(** A pair of the closure as [printTransClosure] and [writeFile] show
    it, and the pairs of an array, one per line. *)
Definition line (e : edge) : String.string :=
  dec (fst e) +++ " -> "%string +++ dec (snd e).

Definition lines (R : list edge) : String.string :=
  String.concat nl (map line R).

(** The cities of an edge list, each one once. *)
Definition distinct_cities (E : list edge) : list Z :=
  nodup Z.eq_dec (cities E).

(** ** Facts about the closure loop *)

Section ClosureFacts.

Variable alloc_ok : nat -> bool.

Lemma edge_is_true u w e : edge_is u w e = true <-> e = (u, w).
Proof.
  destruct e as [a b]. unfold edge_is. simpl.
  rewrite andb_true_iff, !Z.eqb_eq. split.
  - intros [-> ->]. reflexivity.
  - intros H. inversion H. split; reflexivity.
Qed.

Lemma has_edge_In R u w : has_edge R u w = true <-> In (u, w) R.
Proof.
  unfold has_edge. rewrite existsb_exists. split.
  - intros [e [Hin He]]. apply edge_is_true in He. subst e. exact Hin.
  - intros H. exists (u, w). split; [exact H | now apply edge_is_true].
Qed.

Lemma has_edge_not_In R u w : has_edge R u w = false <-> ~ In (u, w) R.
Proof.
  rewrite <- has_edge_In. destruct (has_edge R u w); split; congruence.
Qed.

(** The body of the innermost loop, case by case. *)
Lemma compose_eq u v R ch y w :
  compose alloc_ok u v (Ok (R, ch)) (y, w) =
  if wants R u v y w
  then if alloc_ok (sizeOfR R + 2)
       then Ok (R ++ [(u, w)], true) else Err AllocError
  else Ok (R, ch).
Proof.
  unfold compose, wants. simpl.
  destruct (y =? v); simpl; [| reflexivity].
  destruct (u =? w); simpl; [reflexivity |].
  destruct (negb (u =? y) && negb (v =? w)); simpl; [| reflexivity].
  destruct (has_edge R u w); reflexivity.
Qed.

Lemma compose_fold_err u v l e :
  fold_left (compose alloc_ok u v) l (Err e) = Err e.
Proof. induction l as [| x l IH]; simpl; [reflexivity | exact IH]. Qed.

Lemma compose_all_fold_err R0 l e :
  fold_left (compose_all alloc_ok R0) l (Err e) = Err e.
Proof.
  induction l as [| [u v] l IH]; simpl; [reflexivity |].
  rewrite compose_fold_err. exact IH.
Qed.

(** A loop over the indices of a list, reading the list through a
    state that keeps it readable, is the loop over its elements. *)
Lemma fold_left_indexed {A S : Type} (f : S -> nat -> S) (g : S -> A -> S)
  (P : S -> Prop) (l : list A) :
  (forall s j a, P s -> nth_error l j = Some a ->
                 f s j = g s a /\ P (g s a)) ->
  forall s, P s ->
    fold_left f (seq 0 (length l)) s = fold_left g l s /\
    P (fold_left g l s).
Proof.
  induction l as [| a l IH] using rev_ind; intros H s Hs.
  - simpl. split; [reflexivity | exact Hs].
  - rewrite length_app, seq_app, !fold_left_app. cbn [length seq fold_left].
    assert (Hl : forall s' j a', P s' -> nth_error l j = Some a' ->
                                 f s' j = g s' a' /\ P (g s' a')).
    { intros s' j a' Hs' Hj. apply H; [exact Hs' |].
      rewrite nth_error_app1; [exact Hj |].
      apply nth_error_Some. congruence. }
    destruct (IH Hl s Hs) as [He HP].
    rewrite He. apply H; [exact HP |].
    rewrite nth_error_app2, Nat.sub_diag; [reflexivity | lia].
Qed.

Lemma compose_extends R0 u v st e :
  extends R0 st -> extends R0 (compose alloc_ok u v st e).
Proof.
  destruct st as [[R ch] | x]; [| intros _; exact I].
  destruct e as [y w]. intros [added ->]. rewrite compose_eq.
  destruct (wants (R0 ++ added) u v y w); [| exists added; reflexivity].
  destruct (alloc_ok (sizeOfR (R0 ++ added) + 2)); [| exact I].
  exists (added ++ [(u, w)]). rewrite app_assoc. reflexivity.
Qed.

Lemma compose_fold_extends R0 u v l :
  forall st, extends R0 st ->
             extends R0 (fold_left (compose alloc_ok u v) l st).
Proof.
  induction l as [| e l IH]; intros st Hst; [exact Hst |].
  cbn [fold_left]. apply IH, compose_extends, Hst.
Qed.

Lemma extends_nth_error R0 R ch j e :
  extends R0 (Ok (R, ch)) -> nth_error R0 j = Some e ->
  nth_error R j = Some e.
Proof.
  intros [added ->] Hj. rewrite nth_error_app1; [exact Hj |].
  apply nth_error_Some. congruence.
Qed.

(** The inner loop reads the pairs of [R0], ... *)
Lemma inner_loop_sweep R0 u v st :
  extends R0 st ->
  fold_left (inner_at alloc_ok u v) (seq 0 (length R0)) st =
  fold_left (compose alloc_ok u v) R0 st.
Proof.
  intros Hst.
  apply (fold_left_indexed (inner_at alloc_ok u v) (compose alloc_ok u v)
           (extends R0) R0); [| exact Hst].
  intros s j e Hs Hj. split; [| apply compose_extends, Hs].
  destruct s as [[R ch] | x]; [| reflexivity].
  unfold inner_at. cbn [bind fst].
  rewrite (extends_nth_error R0 R ch j e Hs Hj). reflexivity.
Qed.

(** ... and so does the outer loop. *)
Theorem closure_pass_sweep R0 :
  closure_pass alloc_ok R0 = closure_sweep alloc_ok R0.
Proof.
  unfold closure_pass, closure_sweep.
  apply (fold_left_indexed (outer_at alloc_ok (length R0))
           (compose_all alloc_ok R0) (extends R0) R0).
  - intros s i [u v] Hs Hi. unfold compose_all. split.
    + destruct s as [[R ch] | x].
      * unfold outer_at. cbn [bind fst].
        rewrite (extends_nth_error R0 R ch i (u, v) Hs Hi).
        apply inner_loop_sweep. exact Hs.
      * cbn [outer_at bind]. rewrite compose_fold_err. reflexivity.
    + apply compose_fold_extends, Hs.
  - exists []. rewrite app_nil_r. reflexivity.
Qed.

(** An invariant of the state [(R, changed)] that every append keeps is
    kept by the inner loop, ... *)
Lemma compose_fold_inv (Q : list edge -> bool -> Prop) (R0 : list edge) u v :
  (forall R ch y w, In (y, w) R0 -> Q R ch -> wants R u v y w = true ->
                    Q (R ++ [(u, w)]) true) ->
  forall l, incl l R0 ->
  forall R ch R' ch', Q R ch ->
    fold_left (compose alloc_ok u v) l (Ok (R, ch)) = Ok (R', ch') ->
    Q R' ch'.
Proof.
  intros Hstep l. induction l as [| [y w] l IH]; intros Hl R ch R' ch' HQ Hf.
  - simpl in Hf. inversion Hf. subst. exact HQ.
  - cbn [fold_left] in Hf. rewrite compose_eq in Hf.
    assert (Hin : In (y, w) R0) by (apply Hl; left; reflexivity).
    assert (Hl' : incl l R0) by (intros x Hx; apply Hl; right; exact Hx).
    destruct (wants R u v y w) eqn:Hw.
    + destruct (alloc_ok (sizeOfR R + 2)).
      * eapply IH; [exact Hl' | | exact Hf]. eapply Hstep; eauto.
      * rewrite compose_fold_err in Hf. discriminate.
    + eapply IH; [exact Hl' | exact HQ | exact Hf].
Qed.

(** ... by the outer loop, ... *)
Lemma compose_all_fold_inv (Q : list edge -> bool -> Prop) (R0 : list edge) :
  (forall R ch u v y w, In (u, v) R0 -> In (y, w) R0 -> Q R ch ->
                        wants R u v y w = true -> Q (R ++ [(u, w)]) true) ->
  forall l, incl l R0 ->
  forall R ch R' ch', Q R ch ->
    fold_left (compose_all alloc_ok R0) l (Ok (R, ch)) = Ok (R', ch') ->
    Q R' ch'.
Proof.
  intros Hstep l. induction l as [| [u v] l IH]; intros Hl R ch R' ch' HQ Hf.
  - simpl in Hf. inversion Hf. subst. exact HQ.
  - simpl in Hf.
    assert (Hin : In (u, v) R0) by (apply Hl; left; reflexivity).
    assert (Hl' : incl l R0) by (intros x Hx; apply Hl; right; exact Hx).
    destruct (fold_left (compose alloc_ok u v) R0 (Ok (R, ch)))
      as [[R1 ch1] | e] eqn:Hin1.
    + eapply IH; [exact Hl' | | exact Hf].
      eapply (compose_fold_inv Q R0 u v); [| apply incl_refl | exact HQ | exact Hin1].
      intros; eapply Hstep; eauto.
    + rewrite compose_all_fold_err in Hf. discriminate.
Qed.

(** ... and so by a whole pass. *)
Lemma closure_pass_inv (Q : list edge -> bool -> Prop) (R0 : list edge) :
  Q R0 false ->
  (forall R ch u v y w, In (u, v) R0 -> In (y, w) R0 -> Q R ch ->
                        wants R u v y w = true -> Q (R ++ [(u, w)]) true) ->
  forall R' ch', closure_pass alloc_ok R0 = Ok (R', ch') -> Q R' ch'.
Proof.
  intros H0 Hstep R' ch' Hp.
  rewrite closure_pass_sweep in Hp. unfold closure_sweep in Hp.
  eapply (compose_all_fold_inv Q R0 Hstep R0 (incl_refl R0)); eauto.
Qed.

(** A loop that ends with [changed] unset has not appended anything. *)
Lemma compose_fold_unchanged u v l :
  forall st R',
    fold_left (compose alloc_ok u v) l st = Ok (R', false) ->
    st = Ok (R', false) /\
    forall y w, In (y, w) l -> wants R' u v y w = false.
Proof.
  induction l as [| [y w] l IH]; intros st R' Hf.
  - simpl in Hf. split; [exact Hf | intros ? ? []].
  - cbn [fold_left] in Hf. apply IH in Hf. destruct Hf as [Hc Hl].
    destruct st as [[R ch] | e]; [| discriminate].
    rewrite compose_eq in Hc.
    destruct (wants R u v y w) eqn:Hw.
    + destruct (alloc_ok (sizeOfR R + 2)); discriminate.
    + inversion Hc. subst. split; [reflexivity |].
      intros y' w' [He | Hin]; [inversion He; subst; exact Hw | auto].
Qed.

Lemma compose_all_fold_unchanged R0 l :
  forall st R',
    fold_left (compose_all alloc_ok R0) l st = Ok (R', false) ->
    st = Ok (R', false) /\
    forall u v y w, In (u, v) l -> In (y, w) R0 -> wants R' u v y w = false.
Proof.
  induction l as [| [u v] l IH]; intros st R' Hf.
  - simpl in Hf. split; [exact Hf | intros ? ? ? ? []].
  - simpl in Hf. apply IH in Hf. destruct Hf as [Hc Hl].
    apply compose_fold_unchanged in Hc. destruct Hc as [Hst Hu].
    split; [exact Hst |].
    intros u' v' y w [He | Hin] Hy; [inversion He; subst; auto | eauto].
Qed.

Lemma closure_pass_unchanged R0 R' :
  closure_pass alloc_ok R0 = Ok (R', false) ->
  R' = R0 /\
  forall u v y w, In (u, v) R0 -> In (y, w) R0 -> wants R0 u v y w = false.
Proof.
  intros Hp. rewrite closure_pass_sweep in Hp. unfold closure_sweep in Hp.
  apply compose_all_fold_unchanged in Hp. destruct Hp as [He Hw].
  inversion He. subst. split; [reflexivity | exact Hw].
Qed.

(** [createTransClosure] returns an array on which a pass changes nothing. *)
Lemma createTransClosure_fixed fuel :
  forall E R, createTransClosure alloc_ok fuel E = Ok R ->
              closure_pass alloc_ok R = Ok (R, false).
Proof.
  induction fuel as [| fuel IH]; intros E R H; simpl in H; [discriminate |].
  destruct (closure_pass alloc_ok E) as [[R1 [|]] | e] eqn:Hp; simpl in H.
  - eapply IH; exact H.
  - inversion H. subst.
    destruct (closure_pass_unchanged _ _ Hp) as [-> _]. exact Hp.
  - discriminate.
Qed.

(** More fuel does not change what [createTransClosure] returns. *)
Lemma createTransClosure_fuel_mono fuel :
  forall E R fuel',
    createTransClosure alloc_ok fuel E = Ok R -> (fuel <= fuel')%nat ->
    createTransClosure alloc_ok fuel' E = Ok R.
Proof.
  induction fuel as [| fuel IH]; intros E R fuel' H Hle; [discriminate |].
  destruct fuel' as [| fuel']; [lia |].
  cbn [createTransClosure] in *.
  destruct (closure_pass alloc_ok E) as [[R1 ch] | e]; cbn [bind] in *;
    [| discriminate].
  destruct ch; [| exact H]. apply IH; [exact H | lia].
Qed.

(** A pass only appends, and what it appends are pairs [(u,w)], [u <> w]. *)
Lemma closure_pass_appends R0 R' ch :
  closure_pass alloc_ok R0 = Ok (R', ch) ->
  exists added, R' = R0 ++ added /\ Forall (fun e => fst e <> snd e) added.
Proof.
  apply (closure_pass_inv
           (fun R _ => exists added,
                R = R0 ++ added /\ Forall (fun e => fst e <> snd e) added)).
  - exists []. rewrite app_nil_r. split; [reflexivity | constructor].
  - intros R c u v y w _ _ [added [-> Hall]] Hw.
    exists (added ++ [(u, w)]). rewrite app_assoc. split; [reflexivity |].
    apply Forall_app. split; [exact Hall |]. constructor; [| constructor].
    simpl. unfold wants in Hw. rewrite !andb_true_iff in Hw.
    destruct Hw as [[_ Hn] _]. apply negb_true_iff, Z.eqb_neq in Hn. exact Hn.
Qed.

Lemma createTransClosure_appends fuel :
  forall E R, createTransClosure alloc_ok fuel E = Ok R ->
  exists added, R = E ++ added /\ Forall (fun e => fst e <> snd e) added.
Proof.
  induction fuel as [| fuel IH]; intros E R H; simpl in H; [discriminate |].
  destruct (closure_pass alloc_ok E) as [[R1 [|]] | e] eqn:Hp; simpl in H.
  - apply closure_pass_appends in Hp. destruct Hp as [a1 [-> H1]].
    apply IH in H. destruct H as [a2 [-> H2]].
    exists (a1 ++ a2). rewrite app_assoc. split; [reflexivity |].
    apply Forall_app. split; assumption.
  - inversion H. subst. eapply closure_pass_appends. exact Hp.
  - discriminate.
Qed.

Lemma createTransClosure_incl fuel E R :
  createTransClosure alloc_ok fuel E = Ok R -> incl E R.
Proof.
  intros H. apply createTransClosure_appends in H.
  destruct H as [added [-> _]]. apply incl_appl, incl_refl.
Qed.

Lemma wants_true R u v y w :
  wants R u v y w = true ->
  y = v /\ u <> w /\ (u <> y -> v <> w -> ~ In (u, w) R).
Proof.
  unfold wants. rewrite !andb_true_iff, !negb_true_iff.
  intros [[Hy Hu] Hs]. apply Z.eqb_eq in Hy. apply Z.eqb_neq in Hu.
  repeat split; [exact Hy | exact Hu |].
  intros H1 H2. apply Z.eqb_neq in H1, H2. rewrite H1, H2 in Hs.
  simpl in Hs. apply has_edge_not_In. exact Hs.
Qed.

(** Where a pass changes nothing, no two pairs escape the scan for
    duplicates. *)
Lemma closure_pass_fixed_checked R :
  closure_pass alloc_ok R = Ok (R, false) -> ~ unchecked R.
Proof.
  intros Hp [u [v [w [Huv [Hvw [Hne Hs]]]]]].
  destruct (closure_pass_unchanged _ _ Hp) as [_ Hw].
  specialize (Hw u v v w Huv Hvw). unfold wants in Hw.
  rewrite Z.eqb_refl in Hw.
  apply Z.eqb_neq in Hne. rewrite Hne in Hw. simpl in Hw.
  destruct Hs as [-> | ->]; rewrite Z.eqb_refl in Hw; simpl in Hw;
    [| rewrite andb_false_r in Hw]; discriminate.
Qed.

Lemma unchecked_incl R R' : incl R R' -> unchecked R -> unchecked R'.
Proof.
  intros Hi [u [v [w [Huv [Hvw H]]]]]. exists u, v, w.
  split; [apply Hi, Huv | split; [apply Hi, Hvw | exact H]].
Qed.

Lemma createTransClosure_checked fuel E R :
  createTransClosure alloc_ok fuel E = Ok R -> ~ unchecked E.
Proof.
  intros H Hu.
  apply (closure_pass_fixed_checked R).
  - eapply createTransClosure_fixed. exact H.
  - eapply unchecked_incl; [eapply createTransClosure_incl; exact H | exact Hu].
Qed.

(** A pass over an array in which every composition is checked against
    the array keeps it free of repetitions. *)
Lemma closure_pass_NoDup R0 R' ch :
  ~ unchecked R0 -> NoDup R0 ->
  closure_pass alloc_ok R0 = Ok (R', ch) -> NoDup R'.
Proof.
  intros Hu Hnd. apply (closure_pass_inv (fun R _ => NoDup R)); [exact Hnd |].
  intros R c u v y w Huv Hyw HR Hw.
  apply wants_true in Hw. destruct Hw as [-> [Hne Hscan]].
  assert (Huv' : u <> v).
  { intros ->. apply Hu. exists v, v, w. auto. }
  assert (Hvw' : v <> w).
  { intros ->. apply Hu. exists u, w, w. auto. }
  apply NoDup_app; [exact HR | repeat constructor; intros [] |].
  intros a Ha [<- | []]. exact (Hscan Huv' Hvw' Ha).
Qed.

(** *** The claims on [createTransClosure] *)

(** C8.  Every pair of the input edge list is in the array that
    [createTransClosure] returns. *)
Theorem createTransClosure_superset fuel E R :
  createTransClosure alloc_ok fuel E = Ok R ->
  forall e, In e E -> In e R.
Proof.
  intros H e He. exact (createTransClosure_incl fuel E R H e He).
Qed.

(** C10.  Every pair that [createTransClosure] appends has two different
    ends: the body of the innermost loop leaves the array as it is or
    appends a pair [(u,w)] with [u <> w], so what a pass has appended,
    whether or not the loop ever ends, are such pairs; hence, when
    [createTransClosure] returns, the result is the input followed by
    such pairs, and a self-pair [(a,a)] is in it exactly when it was in
    the input. *)
Theorem createTransClosure_self_pairs :
  (forall u v R ch e R' ch',
      compose alloc_ok u v (Ok (R, ch)) e = Ok (R', ch') ->
      R' = R \/ (R' = R ++ [(u, snd e)] /\ u <> snd e)) /\
  (forall R0 R' ch,
      closure_pass alloc_ok R0 = Ok (R', ch) ->
      exists added,
        R' = R0 ++ added /\ Forall (fun e => fst e <> snd e) added) /\
  (forall fuel E R,
      createTransClosure alloc_ok fuel E = Ok R ->
      (exists added,
          R = E ++ added /\ Forall (fun e => fst e <> snd e) added) /\
      (forall a, In (a, a) R <-> In (a, a) E)).
Proof.
  split; [| split].
  - intros u v R ch [y w] R' ch' H. rewrite compose_eq in H. cbn [snd].
    destruct (wants R u v y w) eqn:Hw.
    + destruct (alloc_ok (sizeOfR R + 2)); [| discriminate].
      inversion H. right. split; [reflexivity |].
      exact (proj1 (proj2 (wants_true R u v y w Hw))).
    + inversion H. left. reflexivity.
  - intros R0 R' ch H. exact (closure_pass_appends R0 R' ch H).
  - intros fuel E R H.
    pose proof (createTransClosure_appends fuel E R H) as Happ.
    split; [exact Happ |].
    destruct Happ as [added [-> Hall]]. intros a. split.
    + intros Hin. apply in_app_or in Hin. destruct Hin as [Hin | Hin].
      * exact Hin.
      * rewrite Forall_forall in Hall. apply Hall in Hin. simpl in Hin.
        contradiction.
    + intros Hin. apply in_or_app. left. exact Hin.
Qed.

(** C1, as amended.  In the array that [createTransClosure] returns, two
    pairs [(a,b)] and [(b,c)] with [a <> c] come with the pair [(a,c)]. *)
Theorem createTransClosure_transitive_distinct fuel E R :
  createTransClosure alloc_ok fuel E = Ok R ->
  forall a b c, In (a, b) R -> In (b, c) R -> a <> c -> In (a, c) R.
Proof.
  intros H a b c Hab Hbc Hac.
  apply createTransClosure_fixed in H.
  destruct (closure_pass_unchanged _ _ H) as [_ Hw].
  specialize (Hw a b b c Hab Hbc). unfold wants in Hw.
  rewrite Z.eqb_refl in Hw. apply Z.eqb_neq in Hac. rewrite Hac in Hw.
  simpl in Hw. apply negb_false_iff in Hw.
  rewrite !andb_true_iff in Hw. destruct Hw as [_ Hw].
  apply has_edge_In. exact Hw.
Qed.

(** C3.  From an edge list without repetition, [createTransClosure]
    returns an array without repetition. *)
Theorem createTransClosure_NoDup fuel :
  forall E R, NoDup E -> createTransClosure alloc_ok fuel E = Ok R -> NoDup R.
Proof.
  induction fuel as [| fuel IH]; intros E R Hnd H; [discriminate |].
  pose proof (createTransClosure_checked _ _ _ H) as Hu.
  simpl in H.
  destruct (closure_pass alloc_ok E) as [[R1 ch] | e] eqn:Hp; simpl in H;
    [| discriminate].
  pose proof (closure_pass_NoDup _ _ _ Hu Hnd Hp) as Hnd1.
  destruct ch.
  - eapply IH; eassumption.
  - inversion H. subst. exact Hnd1.
Qed.


End ClosureFacts.

(** *** Concrete runs *)

(** C1, as stated, fails: on the two-cycle [(0,1)], [(1,0)] the first pass
    appends nothing, and the array returned contains [(0,1)] and [(1,0)]
    but not [(0,0)]. *)
Lemma createTransClosure_two_cycle_not_transitive :
  createTransClosure alloc_always 1 [(0, 1); (1, 0)] = Ok [(0, 1); (1, 0)] /\
  In (0, 1) [(0, 1); (1, 0)] /\
  In (1, 0) [(0, 1); (1, 0)] /\
  ~ In (0, 0) [(0, 1); (1, 0)].
Proof.
  split; [reflexivity |]. split; [left; reflexivity |].
  split; [right; left; reflexivity |].
  intros [H | [H | []]]; discriminate.
Qed.

(** The chain [(0,1)], [(1,2)]: its closure holds [(0,2)]. *)
Lemma createTransClosure_transitive_distinct_witness :
  createTransClosure alloc_always 2 [(0, 1); (1, 2)]
    = Ok [(0, 1); (1, 2); (0, 2)] /\
  In (0, 2) [(0, 1); (1, 2); (0, 2)].
Proof.
  split; [reflexivity |].
  apply (createTransClosure_transitive_distinct alloc_always 2
           [(0, 1); (1, 2)] _ eq_refl 0 1 2).
  - left; reflexivity.
  - right; left; reflexivity.
  - discriminate.
Defined.

(** The same chain: its closure holds [(1,2)]. *)
Lemma createTransClosure_superset_witness :
  createTransClosure alloc_always 2 [(0, 1); (1, 2)]
    = Ok [(0, 1); (1, 2); (0, 2)] /\
  In (1, 2) [(0, 1); (1, 2); (0, 2)].
Proof.
  split; [reflexivity |].
  apply (createTransClosure_superset alloc_always 2
           [(0, 1); (1, 2)] _ eq_refl (1, 2)).
  right; left; reflexivity.
Defined.

(** A chain beside a lone self-pair: the closure has that self-pair
    and no other; a pass over the two-cycle, which composes to
    self-pairs only, appends nothing; and when [(0,1)] meets [(1,2)] the
    pair appended is [(0,2)]. *)
Lemma createTransClosure_self_pairs_witness :
  createTransClosure alloc_always 2 [(0, 1); (1, 2); (3, 3)]
    = Ok [(0, 1); (1, 2); (3, 3); (0, 2)] /\
  (In (3, 3) [(0, 1); (1, 2); (3, 3); (0, 2)]
   <-> In (3, 3) [(0, 1); (1, 2); (3, 3)]) /\
  closure_pass alloc_always [(0, 1); (1, 0)] = Ok ([(0, 1); (1, 0)], false) /\
  (exists added,
      [(0, 1); (1, 0)] = [(0, 1); (1, 0)] ++ added /\
      Forall (fun e => fst e <> snd e) added) /\
  compose alloc_always 0 1 (Ok ([(0, 1); (1, 2)], false)) (1, 2)
    = Ok ([(0, 1); (1, 2); (0, 2)], true) /\
  ([(0, 1); (1, 2); (0, 2)] = [(0, 1); (1, 2)] \/
   [(0, 1); (1, 2); (0, 2)] = [(0, 1); (1, 2)] ++ [(0, snd (1, 2))] /\
   0 <> snd (1, 2)).
Proof.
  destruct (createTransClosure_self_pairs alloc_always) as [HA [HB HC]].
  split; [reflexivity |].
  split; [exact (proj2 (HC 2%nat [(0, 1); (1, 2); (3, 3)] _ eq_refl) 3) |].
  split; [reflexivity |].
  split; [exact (HB [(0, 1); (1, 0)] [(0, 1); (1, 0)] false eq_refl) |].
  split; [reflexivity |].
  exact (HA 0 1 [(0, 1); (1, 2)] false (1, 2) [(0, 1); (1, 2); (0, 2)] true
            eq_refl).
Defined.

(** The chain again: no repetition in, no repetition out. *)
Lemma createTransClosure_NoDup_witness :
  NoDup [(0, 1); (1, 2)] /\
  createTransClosure alloc_always 2 [(0, 1); (1, 2)]
    = Ok [(0, 1); (1, 2); (0, 2)] /\
  NoDup [(0, 1); (1, 2); (0, 2)].
Proof.
  assert (Hnd : NoDup [(0, 1); (1, 2)]).
  { constructor.
    - intros [H | []]. discriminate.
    - constructor; [intros [] | constructor]. }
  split; [exact Hnd |]. split; [reflexivity |].
  exact (createTransClosure_NoDup alloc_always 2 [(0, 1); (1, 2)] _ Hnd eq_refl).
Defined.



(** *** The closure loop on a self-pair with a neighbour *)

Lemma compose_fold_alloc_always u v l :
  forall s, exists s', fold_left (compose alloc_always u v) l (Ok s) = Ok s'.
Proof.
  induction l as [| [y w] l IH]; intros [R ch].
  - exists (R, ch). reflexivity.
  - cbn [fold_left]. rewrite compose_eq.
    destruct (wants R u v y w); unfold alloc_always; apply IH.
Qed.

Lemma compose_all_fold_alloc_always R0 l :
  forall s,
  exists s', fold_left (compose_all alloc_always R0) l (Ok s) = Ok s'.
Proof.
  induction l as [| [u v] l IH]; intros s.
  - exists s. reflexivity.
  - cbn [fold_left compose_all].
    destruct (compose_fold_alloc_always u v R0 s) as [s1 ->]. apply IH.
Qed.

(** With an allocator that never refuses, the only way not to return an
    array is to run out of fuel. *)
Lemma createTransClosure_alloc_always fuel :
  forall E,
    (exists R, createTransClosure alloc_always fuel E = Ok R) \/
    createTransClosure alloc_always fuel E = Err OutOfFuel.
Proof.
  induction fuel as [| fuel IH]; intros E; [right; reflexivity |].
  cbn [createTransClosure]. rewrite closure_pass_sweep. unfold closure_sweep.
  destruct (compose_all_fold_alloc_always E E (E, false)) as [[R1 ch] ->].
  simpl. destruct ch; [apply IH | left; exists R1; reflexivity].
Qed.

(** An input with two pairs that escape the scan for duplicates is never
    closed: every pass appends their composition again. *)
Lemma createTransClosure_unchecked_never_returns alloc_ok fuel E R :
  unchecked E -> createTransClosure alloc_ok fuel E <> Ok R.
Proof.
  intros Hu H. exact (createTransClosure_checked alloc_ok fuel E R H Hu).
Qed.

(** C2, the failing input.  On the edge list [(0,0)], [(0,1)] -- the
    matrix [[1,1],[0,0]] -- no number of passes is enough: the pass loop
    never completes a pass that adds nothing. *)
Theorem createTransClosure_self_pair_diverges :
  forall fuel,
    createTransClosure alloc_always fuel [(0, 0); (0, 1)] = Err OutOfFuel.
Proof.
  intros fuel.
  destruct (createTransClosure_alloc_always fuel [(0, 0); (0, 1)])
    as [[R H] | H]; [| exact H].
  exfalso. revert H. apply createTransClosure_unchecked_never_returns.
  exists 0, 0, 1. split; [left; reflexivity |].
  split; [right; left; reflexivity |].
  split; [discriminate | left; reflexivity].
Qed.

(** ** Termination of the closure loop without self-pairs *)

Section ClosureTermination.

Variable alloc_ok : nat -> bool.

Lemma filter_length_le {A : Type} (f g : A -> bool) (l : list A) :
  (forall y, g y = true -> f y = true) ->
  (length (filter g l) <= length (filter f l))%nat.
Proof.
  intros Hgf. induction l as [| y l IH]; simpl; [lia |].
  destruct (g y) eqn:Hg.
  - rewrite (Hgf y Hg). simpl. lia.
  - destruct (f y); simpl; lia.
Qed.

Lemma filter_length_lt {A : Type} (f g : A -> bool) (l : list A) (x : A) :
  (forall y, g y = true -> f y = true) ->
  In x l -> f x = true -> g x = false ->
  (length (filter g l) < length (filter f l))%nat.
Proof.
  intros Hgf. induction l as [| y l IH]; intros Hin Hf Hg; [destruct Hin |].
  simpl. destruct Hin as [-> | Hin].
  - rewrite Hf, Hg. simpl.
    pose proof (filter_length_le f g l Hgf). lia.
  - specialize (IH Hin Hf Hg). destruct (g y) eqn:Hgy.
    + rewrite (Hgf y Hgy). simpl. lia.
    + destruct (f y); simpl; lia.
Qed.

Lemma has_edge_app R p a b :
  has_edge (R ++ [p]) a b = has_edge R a b || edge_is a b p.
Proof.
  unfold has_edge. rewrite existsb_app. simpl. rewrite orb_false_r.
  reflexivity.
Qed.

(** Appending a pair over [V] that is not there yet leaves fewer pairs
    missing. *)
Lemma missing_append V R u w :
  In u V -> In w V -> ~ In (u, w) R ->
  (missing V (R ++ [(u, w)]) < missing V R)%nat.
Proof.
  intros Hu Hw Hn. unfold missing.
  apply (filter_length_lt _ _ _ (u, w)).
  - intros [a b]. simpl. rewrite has_edge_app, negb_orb, andb_true_iff.
    intros [H _]. exact H.
  - apply in_prod; assumption.
  - simpl. apply negb_true_iff, has_edge_not_In. exact Hn.
  - simpl. rewrite has_edge_app. apply negb_false_iff, orb_true_iff.
    right. apply edge_is_true. reflexivity.
Qed.

Lemma closure_pass_progress V R0 R' ch :
  irreflexive R0 -> within V R0 ->
  closure_pass alloc_ok R0 = Ok (R', ch) ->
  irreflexive R' /\ within V R' /\
  (ch = true -> (missing V R' < missing V R0)%nat).
Proof.
  intros Hirr Hin Hp.
  assert (H : irreflexive R' /\ within V R' /\
              (missing V R' <= missing V R0)%nat /\
              (ch = true -> (missing V R' < missing V R0)%nat)).
  { revert R' ch Hp.
    apply (closure_pass_inv alloc_ok
             (fun R c => irreflexive R /\ within V R /\
                         (missing V R <= missing V R0)%nat /\
                         (c = true -> (missing V R < missing V R0)%nat))).
    - split; [exact Hirr |]. split; [exact Hin |].
      split; [lia | discriminate].
    - intros R c u v y w Huv Hyw [HiR [HwR [Hle _]]] Hw.
      apply wants_true in Hw. destruct Hw as [-> [Hne Hscan]].
      assert (Hnin : ~ In (u, w) R).
      { apply Hscan; [exact (Hirr _ _ Huv) | exact (Hirr _ _ Hyw)]. }
      destruct (Hin _ _ Huv) as [HuV _]. destruct (Hin _ _ Hyw) as [_ HwV].
      pose proof (missing_append V R u w HuV HwV Hnin) as Hlt.
      split; [| split; [| split]].
      + intros a b Hab. apply in_app_or in Hab.
        destruct Hab as [Hab | [Hab | []]]; [exact (HiR _ _ Hab) |].
        inversion Hab. subst. exact Hne.
      + intros a b Hab. apply in_app_or in Hab.
        destruct Hab as [Hab | [Hab | []]]; [exact (HwR _ _ Hab) |].
        inversion Hab. subst. split; assumption.
      + apply Nat.lt_le_incl.
        eapply Nat.lt_le_trans; [exact Hlt | exact Hle].
      + intros _. eapply Nat.lt_le_trans; [exact Hlt | exact Hle]. }
  destruct H as [H1 [H2 [_ H3]]]. auto.
Qed.

(** The loops of a pass fail only when [realloc] does. *)
Lemma compose_fold_error u v l :
  forall st e,
    fold_left (compose alloc_ok u v) l st = Err e ->
    st = Err e \/ e = AllocError.
Proof.
  induction l as [| [y w] l IH]; intros st e Hf.
  - left. exact Hf.
  - cbn [fold_left] in Hf. apply IH in Hf.
    destruct Hf as [Hf | Hf]; [| right; exact Hf].
    destruct st as [[R ch] | e']; [| left; exact Hf].
    rewrite compose_eq in Hf. right.
    destruct (wants R u v y w); [| discriminate].
    destruct (alloc_ok (sizeOfR R + 2)); [discriminate |].
    inversion Hf. reflexivity.
Qed.

Lemma compose_all_fold_error R0 l :
  forall st e,
    fold_left (compose_all alloc_ok R0) l st = Err e ->
    st = Err e \/ e = AllocError.
Proof.
  induction l as [| [u v] l IH]; intros st e Hf.
  - left. exact Hf.
  - cbn [fold_left compose_all] in Hf. apply IH in Hf.
    destruct Hf as [Hf | Hf]; [| right; exact Hf].
    apply compose_fold_error in Hf. exact Hf.
Qed.

Lemma closure_pass_error R0 e :
  closure_pass alloc_ok R0 = Err e -> e = AllocError.
Proof.
  intros H. rewrite closure_pass_sweep in H. unfold closure_sweep in H.
  apply compose_all_fold_error in H.
  destruct H as [H | H]; [discriminate | exact H].
Qed.

Lemma createTransClosure_enough_fuel V fuel :
  forall R, irreflexive R -> within V R -> (missing V R < fuel)%nat ->
            createTransClosure alloc_ok fuel R <> Err OutOfFuel.
Proof.
  induction fuel as [| fuel IH]; intros R Hirr Hin Hlt; [lia |].
  simpl. destruct (closure_pass alloc_ok R) as [[R1 ch] | e] eqn:Hp; simpl.
  - destruct (closure_pass_progress V R R1 ch Hirr Hin Hp) as [H1 [H2 H3]].
    destruct ch; [| discriminate].
    apply IH; [exact H1 | exact H2 |]. specialize (H3 eq_refl). lia.
  - apply closure_pass_error in Hp. subst e. discriminate.
Qed.

Lemma within_cities E : within (cities E) E.
Proof.
  intros a b H. unfold cities. split; apply in_or_app.
  - left. exact (in_map fst E (a, b) H).
  - right. exact (in_map snd E (a, b) H).
Qed.

(** On an edge list without self-pair the pass loop ends: after at most
    as many passes as there are pairs of cities missing from the list,
    and one more, either a pass has added nothing or [realloc] has
    failed. *)
Theorem createTransClosure_terminates E :
  irreflexive E ->
  createTransClosure alloc_ok (S (missing (cities E) E)) E <> Err OutOfFuel.
Proof.
  intros Hirr.
  apply (createTransClosure_enough_fuel (cities E));
    [exact Hirr | apply within_cities | lia].
Qed.

End ClosureTermination.

(** The chain has no self-pair, and its closure loop ends. *)
Lemma createTransClosure_terminates_witness :
  irreflexive [(0, 1); (1, 2)] /\
  createTransClosure alloc_always
    (S (missing (cities [(0, 1); (1, 2)]) [(0, 1); (1, 2)])) [(0, 1); (1, 2)]
  <> Err OutOfFuel.
Proof.
  assert (H : irreflexive [(0, 1); (1, 2)]).
  { intros a b [Hab | [Hab | []]]; inversion Hab; discriminate. }
  split; [exact H |].
  exact (createTransClosure_terminates alloc_always [(0, 1); (1, 2)] H).
Defined.

(** ** Facts about [findPath] *)

Section PathFacts.

Variable alloc_ok : nat -> bool.

Lemma hop_fold_err t l e : fold_left (hop alloc_ok t) l (Err e) = Err e.
Proof. induction l as [| x l IH]; simpl; [reflexivity | exact IH]. Qed.

Lemma consecutive_in_snoc R q a b :
  consecutive_in R (q ++ [a]) -> In (a, b) R ->
  consecutive_in R ((q ++ [a]) ++ [b]).
Proof.
  intros Hc Hab i x y Hx Hy.
  destruct (Nat.lt_ge_cases (S i) (length (q ++ [a]))) as [Hlt | Hge].
  - rewrite nth_error_app1 in Hx by lia.
    rewrite nth_error_app1 in Hy by lia.
    exact (Hc i x y Hx Hy).
  - rewrite nth_error_app2 in Hy by lia.
    assert (Hlen : length (q ++ [a]) = (length q + 1)%nat)
      by (rewrite length_app; reflexivity).
    destruct (S i - length (q ++ [a]))%nat as [| k] eqn:Hk;
      [| destruct k; discriminate].
    cbn [nth_error] in Hy. inversion Hy. subst y.
    assert (Hi : i = length q) by lia. subst i.
    rewrite nth_error_app1 in Hx by lia.
    rewrite nth_error_app2 in Hx by lia.
    rewrite Nat.sub_diag in Hx. cbn [nth_error] in Hx.
    inversion Hx. subst x. exact Hab.
Qed.

Lemma existsb_eqb_In b l : existsb (Z.eqb b) l = true <-> In b l.
Proof.
  rewrite existsb_exists. split.
  - intros [x [Hin He]]. apply Z.eqb_eq in He. subst. exact Hin.
  - intros H. exists b. split; [exact H | apply Z.eqb_refl].
Qed.

(** One more city on the trail. *)
Lemma walk_inv_step R st t q cur b s' :
  hd_error (q ++ [cur]) = Some st ->
  consecutive_in R (q ++ [cur]) ->
  ((forall c, In c (q ++ [cur]) -> ~ In (c, c) R) -> NoDup (q ++ [cur])) ->
  In (cur, b) R -> ~ In b q ->
  trail s' = (q ++ [cur]) ++ [b] ->
  (pathComplete s' = true -> b = t) ->
  walk_inv R st t s'.
Proof.
  intros Hhd Hc Hnd Hin Hnb Htr Hdone. unfold walk_inv. rewrite Htr.
  repeat split.
  - destruct q; simpl in *; exact Hhd.
  - apply consecutive_in_snoc; assumption.
  - intros Hs. apply NoDup_app; [| repeat constructor; intros [] |].
    + apply Hnd. intros c Hcq. apply Hs, in_or_app. left. exact Hcq.
    + intros x Hx [<- | []]. apply in_app_or in Hx.
      destruct Hx as [Hx | [Hx | []]]; [exact (Hnb Hx) |].
      subst. apply (Hs b); [| exact Hin].
      apply in_or_app. left. apply in_or_app. right. left. reflexivity.
  - intros Hd. rewrite (Hdone Hd).
    rewrite (length_app (q ++ [cur]) [t]). simpl.
    rewrite nth_error_app2 by lia.
    replace (length (q ++ [cur]) + 1 - 1 - length (q ++ [cur]))%nat
      with 0%nat by lia.
    reflexivity.
Qed.

Lemma hop_inv R st t s e s' :
  In e R -> walk_inv R st t s ->
  hop alloc_ok t (Ok s) e = Ok s' -> walk_inv R st t s'.
Proof.
  intros Hin Hinv Hh. unfold hop in Hh. simpl in Hh.
  destruct (pathComplete s) eqn:Hpc; [inversion Hh; subst; exact Hinv |].
  destruct e as [a b].
  destruct (a =? current s) eqn:Ha; [| inversion Hh; subst; exact Hinv].
  apply Z.eqb_eq in Ha. subst a.
  destruct (existsb (Z.eqb b) (path s)) eqn:Hex;
    [inversion Hh; subst; exact Hinv |].
  assert (Hnb : ~ In b (path s)).
  { intros Hb. apply existsb_eqb_In in Hb. congruence. }
  destruct Hinv as [Hhd [Hc [Hnd _]]].
  unfold trail in Hhd, Hc, Hnd. rewrite Hpc in Hhd, Hc, Hnd.
  destruct (alloc_ok (length (path s) + 1)); [| discriminate].
  destruct (b =? t) eqn:Hb.
  - destruct (alloc_ok (length (path s ++ [current s]) + 1)); [| discriminate].
    inversion Hh. subst s'. apply Z.eqb_eq in Hb. subst t.
    eapply walk_inv_step; eauto.
  - inversion Hh. subst s'.
    eapply walk_inv_step; eauto. simpl. discriminate.
Qed.

Lemma hop_fold_inv R st t l :
  incl l R ->
  forall s s', walk_inv R st t s ->
    fold_left (hop alloc_ok t) l (Ok s) = Ok s' -> walk_inv R st t s'.
Proof.
  induction l as [| e l IH]; intros Hl s s' Hinv Hf.
  - simpl in Hf. inversion Hf. subst. exact Hinv.
  - cbn [fold_left] in Hf.
    destruct (hop alloc_ok t (Ok s) e) as [s1 | x] eqn:Hh.
    + apply (IH (fun y Hy => Hl y (or_intror Hy)) s1 s'); [| exact Hf].
      eapply hop_inv; [apply Hl; left; reflexivity | exact Hinv | exact Hh].
    + rewrite hop_fold_err in Hf. discriminate.
Qed.

Lemma walk_loop_inv R st t fuel :
  forall s s', walk_inv R st t s ->
    walk_loop alloc_ok fuel R t s = Ok s' ->
    walk_inv R st t s' /\ pathComplete s' = true.
Proof.
  induction fuel as [| fuel IH]; intros s s' Hinv Hw; simpl in Hw.
  - destruct (pathComplete s) eqn:Hpc; [| discriminate].
    inversion Hw. subst. split; assumption.
  - destruct (pathComplete s) eqn:Hpc.
    + inversion Hw. subst. split; assumption.
    + destruct (fold_left (hop alloc_ok t) R (Ok s)) as [s1 | x] eqn:Hf;
        simpl in Hw; [| discriminate].
      apply (IH s1 s'); [| exact Hw].
      eapply hop_fold_inv; [apply incl_refl | exact Hinv | exact Hf].
Qed.

Lemma first_hop_inv R st t l :
  incl l R ->
  forall s, first_hop alloc_ok l st t = Ok s -> walk_inv R st t s.
Proof.
  induction l as [| [a b] l IH]; intros Hl s Hf; simpl in Hf.
  - inversion Hf. subst s. unfold walk_inv, trail. simpl.
    repeat split.
    + intros i x y Hx Hy. destruct i; discriminate.
    + intros _. repeat constructor. intros [].
    + discriminate.
  - destruct (a =? st) eqn:Ha.
    + apply Z.eqb_eq in Ha. subst a.
      assert (Hin : In (st, b) R) by (apply Hl; left; reflexivity).
      destruct (alloc_ok 1); [| discriminate].
      destruct (b =? t) eqn:Hb.
      * destruct (alloc_ok 2); [| discriminate].
        inversion Hf. subst s. apply Z.eqb_eq in Hb. subst b.
        apply (walk_inv_step R st t [] st t); simpl; auto.
        -- intros i x y Hx Hy. destruct i; discriminate.
        -- intros _. repeat constructor. intros [].
      * inversion Hf. subst s.
        apply (walk_inv_step R st t [] st b); simpl; auto.
        -- intros i x y Hx Hy. destruct i; discriminate.
        -- intros _. repeat constructor. intros [].
        -- discriminate.
    + apply IH; [| exact Hf]. intros x Hx. apply Hl. right. exact Hx.
Qed.

(** More fuel does not change what the walk returns. *)
Lemma walk_loop_fuel_mono R t fuel :
  forall s s' fuel',
    walk_loop alloc_ok fuel R t s = Ok s' -> (fuel <= fuel')%nat ->
    walk_loop alloc_ok fuel' R t s = Ok s'.
Proof.
  induction fuel as [| fuel IH]; intros s s' fuel' H Hle.
  - destruct fuel'; cbn [walk_loop] in *;
      destruct (pathComplete s); try discriminate; exact H.
  - destruct fuel' as [| fuel']; [lia |]. cbn [walk_loop] in *.
    destruct (pathComplete s); [exact H |].
    destruct (fold_left (hop alloc_ok t) R (Ok s)) as [s1 | x];
      cbn [bind] in *; [| discriminate].
    apply IH; [exact H | lia].
Qed.

Lemma findPath_fuel_mono fuel fuel' R startCity targetCity a :
  findPath alloc_ok fuel R startCity targetCity = Ok a ->
  (fuel <= fuel')%nat ->
  findPath alloc_ok fuel' R startCity targetCity = Ok a.
Proof.
  unfold findPath. intros H Hle.
  destruct (negb (has_edge R startCity targetCity)); [exact H |].
  destruct (first_hop alloc_ok R startCity targetCity) as [s | x];
    cbn [bind] in *; [| discriminate].
  destruct (walk_loop alloc_ok fuel R targetCity s) as [s' | x] eqn:Hw;
    cbn [bind] in *; [| discriminate].
  rewrite (walk_loop_fuel_mono R targetCity fuel s s' fuel' Hw Hle).
  exact H.
Qed.

(** *** The claims on [findPath] *)

(** C5, as amended.  A path [p] that [findPath] returns starts at the
    start city, ends at the target city and goes along pairs of [R]; when
    no city of [p] has a self-pair in [R], no city occurs twice in [p]. *)
Theorem findPath_path_valid fuel R startCity targetCity p :
  findPath alloc_ok fuel R startCity targetCity = Ok (PathFound p) ->
  hd_error p = Some startCity /\
  nth_error p (length p - 1) = Some targetCity /\
  consecutive_in R p /\
  ((forall c, In c p -> ~ In (c, c) R) -> NoDup p).
Proof.
  unfold findPath. intros H.
  destruct (negb (has_edge R startCity targetCity)); [discriminate |].
  destruct (first_hop alloc_ok R startCity targetCity) as [s | x] eqn:Hf;
    simpl in H; [| discriminate].
  destruct (walk_loop alloc_ok fuel R targetCity s) as [s' | x] eqn:Hw;
    simpl in H; [| discriminate].
  inversion H. subst p.
  apply (first_hop_inv R _ _ R (incl_refl R)) in Hf.
  destruct (walk_loop_inv R _ _ fuel s s' Hf Hw) as [Hinv Hpc].
  unfold walk_inv, trail in Hinv. rewrite Hpc in Hinv.
  destruct Hinv as [H1 [H2 [H3 H4]]]. auto.
Qed.

(** C7.  [findPath] answers that no path exists exactly when the pair
    [(startCity, targetCity)] is not in [R]. *)
Theorem findPath_unreachable_iff fuel R startCity targetCity :
  findPath alloc_ok fuel R startCity targetCity = Ok NoPath <->
  ~ In (startCity, targetCity) R.
Proof.
  unfold findPath. rewrite <- has_edge_not_In.
  destruct (has_edge R startCity targetCity); simpl.
  - split; [| discriminate]. intros H. exfalso.
    destruct (first_hop alloc_ok R startCity targetCity) as [s | x];
      simpl in H; [| discriminate].
    destruct (walk_loop alloc_ok fuel R targetCity s) as [s' | x];
      simpl in H; discriminate.
  - split; reflexivity.
Qed.

(** A scan that leaves the walk where it was will do so again. *)
Lemma walk_loop_stuck R t s :
  pathComplete s = false ->
  fold_left (hop alloc_ok t) R (Ok s) = Ok s ->
  forall fuel, walk_loop alloc_ok fuel R t s = Err OutOfFuel.
Proof.
  intros Hpc Hf fuel. induction fuel as [| fuel IH]; simpl; rewrite Hpc.
  - reflexivity.
  - rewrite Hf. simpl. exact IH.
Qed.

End PathFacts.

(** C5, as stated, fails: asked for the way from city 0 to itself in the
    closure [(0,0)] of the matrix [[1,0],[0,0]], [findPath] prints
    [0 => 0]. *)
Lemma findPath_self_pair_repeats :
  findPath alloc_always 0 [(0, 0)] 0 0 = Ok (PathFound [0; 0]) /\
  ~ NoDup [0; 0].
Proof.
  split; [reflexivity |].
  intros H. inversion H as [| x l Hn _]. apply Hn. left. reflexivity.
Qed.

(** The closure of the chain [(0,1)], [(1,2)] and the way from 0 to 2. *)
Lemma findPath_path_valid_witness :
  findPath alloc_always 1 [(0, 1); (1, 2); (0, 2)] 0 2
    = Ok (PathFound [0; 1; 2]) /\
  (forall c, In c [0; 1; 2] -> ~ In (c, c) [(0, 1); (1, 2); (0, 2)]) /\
  hd_error [0; 1; 2] = Some 0 /\
  nth_error [0; 1; 2] (length [0; 1; 2] - 1) = Some 2 /\
  consecutive_in [(0, 1); (1, 2); (0, 2)] [0; 1; 2] /\
  NoDup [0; 1; 2].
Proof.
  assert (Hs : forall c, In c [0; 1; 2] ->
                         ~ In (c, c) [(0, 1); (1, 2); (0, 2)]).
  { intros c _ [H | [H | [H | []]]]; inversion H; subst; discriminate. }
  destruct (findPath_path_valid alloc_always 1 [(0, 1); (1, 2); (0, 2)] 0 2
              [0; 1; 2] eq_refl) as [H1 [H2 [H3 H4]]].
  split; [reflexivity |]. split; [exact Hs |].
  split; [exact H1 |]. split; [exact H2 |]. split; [exact H3 |].
  exact (H4 Hs).
Defined.

(** C6, the failing input.  In the closure [(0,1)], [(0,2)] the pair
    [(0,2)] is present, but the walk from 0 to 2 first steps to city 1,
    which no pair leaves: every further scan changes nothing, and no
    number of scans ends the loop. *)
Theorem findPath_dead_end_diverges :
  In (0, 2) [(0, 1); (0, 2)] /\
  createTransClosure alloc_always 1 [(0, 1); (0, 2)] = Ok [(0, 1); (0, 2)] /\
  forall fuel,
    findPath alloc_always fuel [(0, 1); (0, 2)] 0 2 = Err OutOfFuel.
Proof.
  split; [right; left; reflexivity |]. split; [reflexivity |].
  intros fuel. unfold findPath. simpl.
  rewrite (walk_loop_stuck alloc_always [(0, 1); (0, 2)] 2 (mkWalk [0] 1 false));
    reflexivity.
Qed.

(** ** Facts about [createRList] *)

Section EdgeListFacts.

Variable alloc_ok : nat -> bool.

Lemma scan_cell_fold_err A cap i l e :
  fold_left (scan_cell A cap i) l (Err e) = Err e.
Proof. induction l as [| x l IH]; simpl; [reflexivity | exact IH]. Qed.

(** The two nested loops visit the cells in row-major order. *)
Lemma scan_rows_row_major A N cap rows :
  forall st,
    fold_left (scan_row A N cap) rows st =
    fold_left (fun st ij => scan_cell A cap (fst ij) st (snd ij))
              (list_prod rows (seq 0 N)) st.
Proof.
  induction rows as [| i rows IH]; intros st; [reflexivity |].
  cbn [fold_left list_prod]. rewrite fold_left_app, IH. f_equal.
  unfold scan_row. generalize (seq 0 N) st. clear.
  intros l. induction l as [| j l IH]; intros st; [reflexivity |].
  cbn [fold_left map fst snd]. apply IH.
Qed.

Lemma scan_cell_eq A cap i j buf :
  scan_cell A cap i (Ok buf) j =
  match cell A i j with
  | None => Err OutOfBounds
  | Some a => if a =? 1 then store_pair cap buf i j else Ok buf
  end.
Proof. reflexivity. Qed.

(** As long as the block is large enough for the cells equal to 1, the
    scan stores exactly those, in the order of the scan. *)
Lemma scan_cells_ok A cap l :
  forall buf,
    (forall ij, In ij l -> cell A (fst ij) (snd ij) <> None) ->
    (length buf + length (filter (is_one A) l) <= cap)%nat ->
    fold_left (fun st ij => scan_cell A cap (fst ij) st (snd ij)) l (Ok buf)
    = Ok (buf ++ map to_edge (filter (is_one A) l)).
Proof.
  induction l as [| [i j] l IH]; intros buf Hc Hcap.
  - simpl. rewrite app_nil_r. reflexivity.
  - assert (Hl : forall ij, In ij l -> cell A (fst ij) (snd ij) <> None)
      by (intros ij Hin; apply Hc; right; exact Hin).
    assert (Hij : cell A i j <> None)
      by (apply (Hc (i, j)); left; reflexivity).
    cbn [fold_left filter fst snd] in *. rewrite scan_cell_eq.
    destruct (cell A i j) as [a |] eqn:Hcell; [| congruence].
    assert (Hone : is_one A (i, j) = (a =? 1))
      by (unfold is_one; cbn [fst snd]; rewrite Hcell; reflexivity).
    rewrite Hone in *. destruct (a =? 1).
    + cbn [length map] in *. unfold store_pair.
      replace (length buf <? cap)%nat with true
        by (symmetry; apply Nat.ltb_lt; lia).
      rewrite IH.
      * rewrite <- app_assoc. reflexivity.
      * exact Hl.
      * rewrite length_app. simpl. lia.
    + apply IH; assumption.
Qed.

Lemma square_cell A N i j :
  square A N -> (i < N)%nat -> (j < N)%nat -> cell A i j <> None.
Proof.
  intros [Hlen Hrows] Hi Hj. unfold cell.
  destruct (nth_error A i) as [row |] eqn:Hrow.
  - apply nth_error_Some. rewrite Forall_forall in Hrows.
    rewrite (Hrows row (nth_error_In _ _ Hrow)). exact Hj.
  - apply nth_error_None in Hrow. lia.
Qed.

Lemma list_prod_map_S (l : list nat) (cols : list nat) :
  list_prod (map S l) cols =
  map (fun ij => (S (fst ij), snd ij)) (list_prod l cols).
Proof.
  induction l as [| i l IH]; [reflexivity |].
  cbn [map list_prod]. rewrite map_app, map_map, IH. reflexivity.
Qed.

(** The cells equal to 1 in one row. *)
Lemma row_ones row :
  length (filter (fun j => match nth_error row j with
                           | Some a => a =? 1
                           | None => false
                           end) (seq 0 (length row)))
  = length (filter (fun a => a =? 1) row).
Proof.
  induction row as [| a row IH]; [reflexivity |].
  cbn [length seq filter nth_error].
  rewrite <- seq_shift, filter_map_swap.
  destruct (a =? 1); cbn [length]; rewrite length_map; cbn [nth_error];
    rewrite IH; reflexivity.
Qed.

(** The cells equal to 1 in the matrix, counted along the scan. *)
Lemma rows_ones N A :
  Forall (fun row => length row = N) A ->
  length (filter (is_one A) (list_prod (seq 0 (length A)) (seq 0 N)))
  = count_ones A.
Proof.
  induction A as [| row A IH]; intros Hrows; [reflexivity |].
  inversion Hrows as [| ? ? Hrow Hrest]. subst.
  cbn [length seq list_prod]. rewrite filter_app, length_app.
  change (count_ones (row :: A))
    with (Nat.add (length (filter (fun a => a =? 1) row)) (count_ones A)).
  f_equal.
  - rewrite filter_map_swap, length_map. rewrite <- row_ones.
    reflexivity.
  - rewrite <- seq_shift, list_prod_map_S, filter_map_swap, length_map.
    rewrite <- (IH Hrest). f_equal.
Qed.

Lemma ones_row_major_length A N :
  square A N -> length (ones_row_major A N) = count_ones A.
Proof.
  intros [Hlen Hrows]. unfold ones_row_major, row_major.
  rewrite length_map. subst N. apply rows_ones. exact Hrows.
Qed.

(** [ones_row_major] lists the cells equal to 1 and nothing else. *)
Lemma ones_row_major_In A N i j :
  In (Z.of_nat i, Z.of_nat j) (ones_row_major A N) <->
  (i < N)%nat /\ (j < N)%nat /\ cell A i j = Some 1.
Proof.
  unfold ones_row_major, row_major. rewrite in_map_iff. split.
  - intros [[i' j'] [He Hin]]. unfold to_edge in He. simpl in He.
    inversion He as [[Hi Hj]]. apply Nat2Z.inj in Hi, Hj. subst i' j'.
    apply filter_In in Hin. destruct Hin as [Hin Hone].
    apply in_prod_iff in Hin. rewrite !in_seq in Hin.
    unfold is_one in Hone. simpl in Hone.
    destruct (cell A i j) as [a |]; [| discriminate].
    apply Z.eqb_eq in Hone. subst a. repeat split; lia.
  - intros [Hi [Hj Hc]]. exists (i, j). split; [reflexivity |].
    apply filter_In. split.
    + apply in_prod_iff. rewrite !in_seq. lia.
    + unfold is_one. simpl. rewrite Hc. reflexivity.
Qed.

(** On a square matrix with at most [N*N-N] cells equal to 1,
    [createRList], when its two allocations succeed, returns the cells
    equal to 1 in row-major order, as many pairs as there are such
    cells. *)
Theorem createRList_row_major A N :
  square A N ->
  (count_ones A <= N * N - N)%nat ->
  alloc_ok (2 * (N * N - N)) = true ->
  alloc_ok (2 * count_ones A) = true ->
  createRList alloc_ok A N = Ok (ones_row_major A N) /\
  length (ones_row_major A N) = count_ones A.
Proof.
  intros Hsq Hcap Ha1 Ha2.
  pose proof (ones_row_major_length A N Hsq) as Hlen.
  split; [| exact Hlen].
  unfold createRList. rewrite Ha1, scan_rows_row_major.
  rewrite scan_cells_ok.
  - cbn [bind app]. fold (row_major N). fold (ones_row_major A N).
    unfold sizeOfR. rewrite Hlen, Ha2. reflexivity.
  - intros [i j] Hin. apply in_prod_iff in Hin. rewrite !in_seq in Hin.
    apply (square_cell A N); [exact Hsq | simpl; lia | simpl; lia].
  - cbn [length Nat.add]. fold (row_major N).
    unfold ones_row_major in Hlen. rewrite length_map in Hlen.
    rewrite Hlen. exact Hcap.
Qed.

End EdgeListFacts.

(** The matrix of the chain 0 -> 1 -> 2. *)
Lemma createRList_row_major_witness :
  square [[0; 1; 0]; [0; 0; 1]; [0; 0; 0]] 3 /\
  createRList alloc_always [[0; 1; 0]; [0; 0; 1]; [0; 0; 0]] 3
    = Ok [(0, 1); (1, 2)] /\
  length [(0, 1); (1, 2)] = 2%nat.
Proof.
  assert (Hsq : square [[0; 1; 0]; [0; 0; 1]; [0; 0; 0]] 3).
  { split; [reflexivity |]. repeat constructor. }
  split; [exact Hsq |].
  apply (createRList_row_major alloc_always
           [[0; 1; 0]; [0; 0; 1]; [0; 0; 0]] 3 Hsq).
  - vm_compute. lia.
  - reflexivity.
  - reflexivity.
Defined.

(** C9, the failing input.  For the 2x2 matrix of ones the block holds
    [2*(2*2-2) = 4] cells, that is two pairs, and the scan stores four:
    the third pair is written past the end of the block. *)
Theorem createRList_full_matrix_overflows :
  square [[1; 1]; [1; 1]] 2 /\
  ones_row_major [[1; 1]; [1; 1]] 2 = [(0, 0); (0, 1); (1, 0); (1, 1)] /\
  createRList alloc_always [[1; 1]; [1; 1]] 2 = Err OutOfBounds.
Proof.
  split; [split; [reflexivity | repeat constructor] |].
  split; reflexivity.
Qed.

(** ** The worked examples of the specification *)

(** Three cities in a chain: edge list, closure, and the way from 0 to 2. *)
Example chain_pipeline :
  createRList alloc_always [[0; 1; 0]; [0; 0; 1]; [0; 0; 0]] 3
    = Ok [(0, 1); (1, 2)] /\
  createTransClosure alloc_always 2 [(0, 1); (1, 2)]
    = Ok [(0, 1); (1, 2); (0, 2)] /\
  findPath alloc_always 1 [(0, 1); (1, 2); (0, 2)] 0 2
    = Ok (PathFound [0; 1; 2]).
Proof. repeat split. Qed.

(** Two cities and no edge. *)
Example empty_pipeline :
  createRList alloc_always [[0; 0]; [0; 0]] 2 = Ok [] /\
  createTransClosure alloc_always 1 [] = Ok [] /\
  findPath alloc_always 0 [] 0 1 = Ok NoPath.
Proof. repeat split. Qed.

(** A cycle through three cities: the closure holds the six pairs of
    distinct cities and no self-pair. *)
Example three_cycle_closure :
  createTransClosure alloc_always 2 [(0, 1); (1, 2); (2, 0)]
    = Ok [(0, 1); (1, 2); (2, 0); (0, 2); (1, 0); (2, 1)].
Proof. reflexivity. Qed.

(** ** Further facts about [createTransClosure] *)

Section ClosureMore.

Variable alloc_ok : nat -> bool.

Lemma reachable_trans E a b c :
  reachable E a b -> reachable E b c -> reachable E a c.
Proof.
  intros Hab Hbc. induction Hab as [a b Hin | a x b Hin _ IH].
  - exact (reach_step E a b c Hin Hbc).
  - exact (reach_step E a x c Hin (IH Hbc)).
Qed.

Lemma closure_pass_sound E R0 R' ch :
  (forall a b, In (a, b) R0 -> reachable E a b) ->
  closure_pass alloc_ok R0 = Ok (R', ch) ->
  forall a b, In (a, b) R' -> reachable E a b.
Proof.
  intros H0.
  apply (closure_pass_inv alloc_ok
           (fun R _ => forall a b, In (a, b) R -> reachable E a b));
    [exact H0 |].
  intros R c u v y w Huv Hyw HR Hw a b Hab.
  apply wants_true in Hw. destruct Hw as [-> _].
  apply in_app_or in Hab. destruct Hab as [Hab | [Hab | []]].
  - exact (HR a b Hab).
  - inversion Hab. subst a b.
    exact (reachable_trans E u v w (H0 u v Huv) (H0 v w Hyw)).
Qed.

Lemma createTransClosure_sound_from E fuel :
  forall R0 R,
    (forall a b, In (a, b) R0 -> reachable E a b) ->
    createTransClosure alloc_ok fuel R0 = Ok R ->
    forall a b, In (a, b) R -> reachable E a b.
Proof.
  induction fuel as [| fuel IH]; intros R0 R H0 H; [discriminate |].
  cbn [createTransClosure] in H.
  destruct (closure_pass alloc_ok R0) as [[R1 ch] | e] eqn:Hp;
    cbn [bind] in H; [| discriminate].
  pose proof (closure_pass_sound E R0 R1 ch H0 Hp) as H1.
  destruct ch.
  - exact (IH R1 R H1 H).
  - inversion H. subst R. exact H1.
Qed.

(** X1.  Every pair of the array that [createTransClosure] returns joins two
    cities of which the second can be reached from the first along pairs
    of the input. *)
Theorem createTransClosure_sound fuel E R :
  createTransClosure alloc_ok fuel E = Ok R ->
  forall a b, In (a, b) R -> reachable E a b.
Proof.
  apply createTransClosure_sound_from. intros a b H. exact (reach_edge E a b H).
Qed.

Lemma fixed_transitive_distinct R :
  closure_pass alloc_ok R = Ok (R, false) ->
  forall a b c, In (a, b) R -> In (b, c) R -> a <> c -> In (a, c) R.
Proof.
  intros H a b c Hab Hbc Hac.
  destruct (closure_pass_unchanged alloc_ok _ _ H) as [_ Hw].
  specialize (Hw a b b c Hab Hbc). unfold wants in Hw.
  rewrite Z.eqb_refl in Hw. apply Z.eqb_neq in Hac. rewrite Hac in Hw.
  cbn [negb andb] in Hw. apply negb_false_iff in Hw.
  rewrite !andb_true_iff in Hw. destruct Hw as [_ Hw].
  apply has_edge_In. exact Hw.
Qed.

Lemma reachable_in_fixed E R :
  incl E R -> closure_pass alloc_ok R = Ok (R, false) ->
  forall a b, reachable E a b -> a <> b -> In (a, b) R.
Proof.
  intros Hincl Hfix a b Hr.
  induction Hr as [a b Hin | a x b Hin Hr IH]; intros Hab.
  - exact (Hincl _ Hin).
  - destruct (Z.eq_dec x b) as [-> | Hxb].
    + exact (Hincl _ Hin).
    + exact (fixed_transitive_distinct R Hfix a x b (Hincl _ Hin) (IH Hxb) Hab).
Qed.

(** X2.  Conversely, the array returned holds every pair of two different
    cities of which the second can be reached from the first along pairs
    of the input. *)
Theorem createTransClosure_complete fuel E R :
  createTransClosure alloc_ok fuel E = Ok R ->
  forall a b, reachable E a b -> a <> b -> In (a, b) R.
Proof.
  intros H.
  exact (reachable_in_fixed E R
           (createTransClosure_incl alloc_ok fuel E R H)
           (createTransClosure_fixed alloc_ok fuel E R H)).
Qed.

(** X3.  Run on an array it has returned, [createTransClosure] returns the
    same array after a single pass. *)
Theorem createTransClosure_idempotent fuel E R fuel' :
  createTransClosure alloc_ok fuel E = Ok R ->
  createTransClosure alloc_ok (S fuel') R = Ok R.
Proof.
  intros H. apply createTransClosure_fixed in H.
  cbn [createTransClosure]. rewrite H. reflexivity.
Qed.

(** A pass keeps every composition checked, stays within the cities it
    started with, and leaves fewer pairs missing when it changes the
    array. *)
Lemma closure_pass_progress_checked V R0 R' ch :
  ~ unchecked R0 -> within V R0 ->
  closure_pass alloc_ok R0 = Ok (R', ch) ->
  ~ unchecked R' /\ within V R' /\
  (ch = true -> (missing V R' < missing V R0)%nat).
Proof.
  intros Hu Hin Hp.
  assert (H : (incl R0 R' /\ ~ unchecked R') /\ within V R' /\
              (missing V R' <= missing V R0)%nat /\
              (ch = true -> (missing V R' < missing V R0)%nat)).
  { revert R' ch Hp.
    apply (closure_pass_inv alloc_ok
             (fun R c => (incl R0 R /\ ~ unchecked R) /\ within V R /\
                         (missing V R <= missing V R0)%nat /\
                         (c = true -> (missing V R < missing V R0)%nat))).
    - split; [split; [apply incl_refl | exact Hu] |].
      split; [exact Hin |]. split; [lia | discriminate].
    - intros R c u v y w Huv Hyw [[Hincl HuR] [HwR [Hle _]]] Hw.
      apply wants_true in Hw. destruct Hw as [-> [Hne Hscan]].
      assert (Huv' : u <> v).
      { intros ->. apply Hu. exists v, v, w. auto. }
      assert (Hvw' : v <> w).
      { intros ->. apply Hu. exists u, w, w. auto. }
      pose proof (Hscan Huv' Hvw') as Hnin.
      destruct (Hin _ _ Huv) as [HuV _]. destruct (Hin _ _ Hyw) as [_ HwV].
      pose proof (missing_append V R u w HuV HwV Hnin) as Hlt.
      split; [split |]; [| | split; [| split]].
      + apply incl_appl. exact Hincl.
      + intros [x [y [z [Hxy [Hyz [Hxz Hs]]]]]].
        apply in_app_or in Hxy. apply in_app_or in Hyz.
        destruct Hs as [-> | ->].
        * destruct Hxy as [Hxy | [Hxy | []]];
            [| inversion Hxy; subst; contradiction].
          destruct Hyz as [Hyz | [Hyz | []]].
          -- apply HuR. exists y, y, z. auto.
          -- inversion Hyz. subst y z.
             apply HuR. exists u, u, v. auto.
        * destruct Hyz as [Hyz | [Hyz | []]];
            [| inversion Hyz; subst; contradiction].
          destruct Hxy as [Hxy | [Hxy | []]].
          -- apply HuR. exists x, z, z. auto.
          -- inversion Hxy. subst x z.
             apply HuR. exists v, w, w. auto.
      + intros a b Hab. apply in_app_or in Hab.
        destruct Hab as [Hab | [Hab | []]]; [exact (HwR _ _ Hab) |].
        inversion Hab. subst. split; assumption.
      + apply Nat.lt_le_incl.
        eapply Nat.lt_le_trans; [exact Hlt | exact Hle].
      + intros _. eapply Nat.lt_le_trans; [exact Hlt | exact Hle]. }
  destruct H as [[_ H1] [H2 [_ H3]]]. auto.
Qed.

Lemma createTransClosure_enough_fuel_checked V fuel :
  forall R, ~ unchecked R -> within V R -> (missing V R < fuel)%nat ->
            createTransClosure alloc_ok fuel R <> Err OutOfFuel.
Proof.
  induction fuel as [| fuel IH]; intros R Hu Hin Hlt; [lia |].
  cbn [createTransClosure].
  destruct (closure_pass alloc_ok R) as [[R1 ch] | e] eqn:Hp; cbn [bind].
  - destruct (closure_pass_progress_checked V R R1 ch Hu Hin Hp)
      as [H1 [H2 H3]].
    destruct ch; [| discriminate].
    apply IH; [exact H1 | exact H2 |]. specialize (H3 eq_refl). lia.
  - apply closure_pass_error in Hp. subst e. discriminate.
Qed.

Lemma within_distinct_cities E : within (distinct_cities E) E.
Proof.
  intros a b H. unfold distinct_cities.
  destruct (within_cities E a b H) as [Ha Hb].
  split; apply nodup_In; assumption.
Qed.

(** X4.  When no self-pair of the input shares its city with another pair
    that has a different other end, the pass loop ends: within as many
    passes as there are pairs of cities of the input (each city counted
    once) missing from the input, and one more, a pass adds nothing or
    [realloc] fails. *)
Theorem createTransClosure_checked_terminates E :
  ~ unchecked E ->
  createTransClosure alloc_ok (S (missing (distinct_cities E) E)) E
  <> Err OutOfFuel.
Proof.
  intros Hu.
  apply (createTransClosure_enough_fuel_checked (distinct_cities E));
    [exact Hu | apply within_distinct_cities | lia].
Qed.

(** X5.  When some self-pair of the input does share its city with such a
    pair, [createTransClosure] never returns an array, whatever the
    allocator does and however many passes it is given. *)
Theorem createTransClosure_unchecked_diverges fuel E R :
  unchecked E -> createTransClosure alloc_ok fuel E <> Ok R.
Proof.
  intros Hu H. exact (createTransClosure_checked alloc_ok fuel E R H Hu).
Qed.

End ClosureMore.

(** The chain [(0,1)], [(1,2)]: the pair [(0,2)] of its closure joins two
    cities connected in the input. *)
Lemma createTransClosure_sound_witness :
  createTransClosure alloc_always 2 [(0, 1); (1, 2)]
    = Ok [(0, 1); (1, 2); (0, 2)] /\
  reachable [(0, 1); (1, 2)] 0 2.
Proof.
  split; [reflexivity |].
  apply (createTransClosure_sound alloc_always 2 [(0, 1); (1, 2)]
           [(0, 1); (1, 2); (0, 2)] eq_refl 0 2).
  right; right; left; reflexivity.
Defined.

(** A cycle through three cities: city 0 is reached from city 2 in one
    step, and their pair is in the closure. *)
Lemma createTransClosure_complete_witness :
  createTransClosure alloc_always 2 [(0, 1); (1, 2); (2, 0)]
    = Ok [(0, 1); (1, 2); (2, 0); (0, 2); (1, 0); (2, 1)] /\
  reachable [(0, 1); (1, 2); (2, 0)] 1 0 /\
  In (1, 0) [(0, 1); (1, 2); (2, 0); (0, 2); (1, 0); (2, 1)].
Proof.
  assert (Hr : reachable [(0, 1); (1, 2); (2, 0)] 1 0).
  { apply (reach_step _ 1 2 0); [right; left; reflexivity |].
    apply reach_edge. right; right; left; reflexivity. }
  split; [reflexivity |]. split; [exact Hr |].
  apply (createTransClosure_complete alloc_always 2 [(0, 1); (1, 2); (2, 0)]
           _ eq_refl 1 0 Hr).
  discriminate.
Defined.

(** The closure of the chain, closed again. *)
Lemma createTransClosure_idempotent_witness :
  createTransClosure alloc_always 2 [(0, 1); (1, 2)]
    = Ok [(0, 1); (1, 2); (0, 2)] /\
  createTransClosure alloc_always 1 [(0, 1); (1, 2); (0, 2)]
    = Ok [(0, 1); (1, 2); (0, 2)].
Proof.
  split; [reflexivity |].
  exact (createTransClosure_idempotent alloc_always 2 [(0, 1); (1, 2)]
           [(0, 1); (1, 2); (0, 2)] 0 eq_refl).
Defined.

(** A chain beside a lone self-pair: every composition is checked; of
    the sixteen pairs of its four cities thirteen are missing, and
    fourteen passes are enough. *)
Lemma createTransClosure_checked_terminates_witness :
  ~ unchecked [(0, 1); (1, 2); (3, 3)] /\
  missing (distinct_cities [(0, 1); (1, 2); (3, 3)]) [(0, 1); (1, 2); (3, 3)]
    = 13%nat /\
  createTransClosure alloc_always
    (S (missing (distinct_cities [(0, 1); (1, 2); (3, 3)])
                [(0, 1); (1, 2); (3, 3)]))
    [(0, 1); (1, 2); (3, 3)]
  <> Err OutOfFuel.
Proof.
  assert (Hu : ~ unchecked [(0, 1); (1, 2); (3, 3)]).
  { intros [u [v [w [Huv [Hvw [Hne Hs]]]]]].
    destruct Huv as [Huv | [Huv | [Huv | []]]]; inversion Huv; subst u v;
      destruct Hvw as [Hvw | [Hvw | [Hvw | []]]]; inversion Hvw;
        try subst w; try discriminate;
          destruct Hs as [Hs | Hs]; try discriminate; contradiction. }
  split; [exact Hu |]. split; [reflexivity |].
  exact (createTransClosure_checked_terminates alloc_always
           [(0, 1); (1, 2); (3, 3)] Hu).
Defined.

(** A self-pair at city 5 and a pair leaving city 5. *)
Lemma createTransClosure_unchecked_diverges_witness :
  unchecked [(5, 5); (5, 7)] /\
  createTransClosure alloc_always 4 [(5, 5); (5, 7)] <> Ok [(5, 5); (5, 7)].
Proof.
  assert (Hu : unchecked [(5, 5); (5, 7)]).
  { exists 5, 5, 7. split; [left; reflexivity |].
    split; [right; left; reflexivity |].
    split; [discriminate | left; reflexivity]. }
  split; [exact Hu |].
  exact (createTransClosure_unchecked_diverges alloc_always 4
           [(5, 5); (5, 7)] [(5, 5); (5, 7)] Hu).
Defined.

(** ** Further facts about [createRList] *)

Section EdgeListMore.

Variable alloc_ok : nat -> bool.

Lemma scan_cell_fold_err' A cap (l : list (nat * nat)) e :
  fold_left (fun st ij => scan_cell A cap (fst ij) st (snd ij)) l (Err e)
  = Err e.
Proof. induction l as [| x l IH]; cbn [fold_left]; [reflexivity | exact IH]. Qed.

(** Whatever the matrix, a scan that ends well has stored the cells
    equal to 1, and never more than the block holds. *)
Lemma scan_cells_result A cap l :
  forall buf buf',
    (length buf <= cap)%nat ->
    fold_left (fun st ij => scan_cell A cap (fst ij) st (snd ij)) l (Ok buf)
    = Ok buf' ->
    buf' = buf ++ map to_edge (filter (is_one A) l) /\
    (length buf' <= cap)%nat.
Proof.
  induction l as [| [i j] l IH]; intros buf buf' Hlen Hf.
  - cbn [fold_left] in Hf. inversion Hf. subst buf'.
    cbn [filter map]. rewrite app_nil_r. split; [reflexivity | exact Hlen].
  - cbn [fold_left filter fst snd] in *. rewrite scan_cell_eq in Hf.
    destruct (cell A i j) as [a |] eqn:Hcell.
    + assert (Hone : is_one A (i, j) = (a =? 1))
        by (unfold is_one; cbn [fst snd]; rewrite Hcell; reflexivity).
      rewrite Hone. destruct (a =? 1).
      * unfold store_pair in Hf.
        destruct (length buf <? cap)%nat eqn:Hlt.
        -- apply Nat.ltb_lt in Hlt. apply IH in Hf.
           ++ destruct Hf as [-> Hle]. split; [| exact Hle].
              cbn [map]. rewrite <- app_assoc. reflexivity.
           ++ rewrite length_app. cbn [length]. lia.
        -- rewrite scan_cell_fold_err' in Hf. discriminate.
      * apply IH; assumption.
    + rewrite scan_cell_fold_err' in Hf. discriminate.
Qed.


Lemma NoDup_map_injective {A B : Type} (f : A -> B) (l : list A) :
  (forall x y, f x = f y -> x = y) -> NoDup l -> NoDup (map f l).
Proof.
  intros Hf Hnd. induction Hnd as [| x l Hx _ IH]; cbn [map]; constructor.
  - intros Hin. apply in_map_iff in Hin. destruct Hin as [y [Hy Hin]].
    apply Hf in Hy. subst y. exact (Hx Hin).
  - exact IH.
Qed.

Lemma NoDup_list_prod {A B : Type} (l : list A) (l' : list B) :
  NoDup l -> NoDup l' -> NoDup (list_prod l l').
Proof.
  intros Hl Hl'. induction Hl as [| x l Hx _ IH]; cbn [list_prod];
    [constructor |].
  apply NoDup_app.
  - apply NoDup_map_injective; [| exact Hl'].
    intros y z H. inversion H. reflexivity.
  - exact IH.
  - intros [a b] Hin Hin'. apply in_map_iff in Hin.
    destruct Hin as [y [Hy _]]. inversion Hy. subst a b.
    apply in_prod_iff in Hin'. exact (Hx (proj1 Hin')).
Qed.

Lemma ones_row_major_NoDup A N : NoDup (ones_row_major A N).
Proof.
  unfold ones_row_major, row_major. apply NoDup_map_injective.
  - intros [i j] [i' j'] H. unfold to_edge in H. cbn [fst snd] in H.
    inversion H as [[Hi Hj]]. apply Nat2Z.inj in Hi, Hj. subst. reflexivity.
  - apply NoDup_filter, NoDup_list_prod; apply seq_NoDup.
Qed.

(** In the model, where an access outside the block or outside the table
    is an error, a list that is returned is that of the cells equal to 1
    in row-major order. *)
Lemma createRList_returned A N l :
  createRList alloc_ok A N = Ok l ->
  l = ones_row_major A N /\ NoDup l /\ (length l <= N * N - N)%nat.
Proof.
  unfold createRList. intros H.
  destruct (alloc_ok (2 * (N * N - N))); [| discriminate].
  rewrite scan_rows_row_major in H.
  destruct (fold_left
              (fun st ij => scan_cell A (N * N - N) (fst ij) st (snd ij))
              (list_prod (seq 0 N) (seq 0 N)) (Ok [])) as [buf | e] eqn:Hf;
    cbn [bind] in H; [| discriminate].
  destruct (alloc_ok (sizeOfR buf)); [| discriminate].
  inversion H. subst l.
  apply scan_cells_result in Hf; [| cbn [length]; lia].
  destruct Hf as [Hbuf Hle]. cbn [app] in Hbuf.
  fold (row_major N) in Hbuf. fold (ones_row_major A N) in Hbuf.
  split; [exact Hbuf |]. split; [| exact Hle].
  rewrite Hbuf. apply ones_row_major_NoDup.
Qed.

(** X6.  On a square matrix with at most [N*N-N] cells equal to 1, a
    list that [createRList] returns has no repeated pair, has as many
    pairs as the matrix has cells equal to 1, and holds a pair exactly
    when it is the row and column of such a cell. *)
Theorem createRList_pairs A N l :
  square A N ->
  (count_ones A <= N * N - N)%nat ->
  createRList alloc_ok A N = Ok l ->
  NoDup l /\
  length l = count_ones A /\
  (forall a b,
      In (a, b) l <->
      exists i j, a = Z.of_nat i /\ b = Z.of_nat j /\
                  (i < N)%nat /\ (j < N)%nat /\ cell A i j = Some 1).
Proof.
  intros Hsq _ H. apply createRList_returned in H.
  destruct H as [-> [Hnd _]].
  split; [exact Hnd |].
  split; [exact (ones_row_major_length A N Hsq) |].
  intros a b. split.
  - intros Hin. unfold ones_row_major in Hin. apply in_map_iff in Hin.
    destruct Hin as [[i j] [He Hin]]. unfold to_edge in He.
    cbn [fst snd] in He. injection He as Ha Hb.
    exists i, j. split; [exact (eq_sym Ha) |]. split; [exact (eq_sym Hb) |].
    apply (ones_row_major_In A N i j).
    unfold ones_row_major. apply in_map_iff.
    exists (i, j). split; [reflexivity | exact Hin].
  - intros [i [j [-> [-> H]]]]. apply ones_row_major_In. exact H.
Qed.


Lemma filter_length_split {A : Type} (f : A -> bool) (l : list A) :
  (length (filter f l) + length (filter (fun x => negb (f x)) l))%nat
  = length l.
Proof.
  induction l as [| x l IH]; [reflexivity |].
  cbn [filter]. destruct (f x); cbn [negb length]; lia.
Qed.

(** A square matrix without a 1 on its diagonal has at most [N*N-N]
    cells equal to 1. *)
Lemma zero_diagonal_count A N :
  square A N ->
  (forall i, cell A i i <> Some 1) ->
  (count_ones A <= N * N - N)%nat.
Proof.
  intros Hsq Hdiag.
  pose proof (ones_row_major_length A N Hsq) as Hlen.
  unfold ones_row_major in Hlen. rewrite length_map in Hlen.
  rewrite <- Hlen. unfold row_major.
  set (L := list_prod (seq 0 N) (seq 0 N)).
  set (diag := fun ij : nat * nat => (fst ij =? snd ij)%nat).
  assert (Hle : (length (filter (is_one A) L)
                 <= length (filter (fun ij => negb (diag ij)) L))%nat).
  { apply filter_length_le. intros [i j] Hone. unfold diag. cbn [fst snd].
    apply negb_true_iff, Nat.eqb_neq. intros ->.
    unfold is_one in Hone. cbn [fst snd] in Hone.
    destruct (cell A j j) as [a |] eqn:Hc; [| discriminate].
    apply Z.eqb_eq in Hone. subst a. exact (Hdiag j Hc). }
  assert (Hd : (N <= length (filter diag L))%nat).
  { rewrite <- (length_seq N 0) at 1.
    rewrite <- (length_map (fun i => (i, i)) (seq 0 N)).
    apply NoDup_incl_length.
    - apply NoDup_map_injective; [| apply seq_NoDup].
      intros x y H. inversion H. reflexivity.
    - intros [i j] Hin. apply in_map_iff in Hin.
      destruct Hin as [k [Hk Hin]]. inversion Hk. subst i j.
      apply filter_In. split.
      + unfold L. apply in_prod; exact Hin.
      + unfold diag. cbn [fst snd]. apply Nat.eqb_refl. }
  pose proof (filter_length_split diag L) as Hsplit.
  assert (HL : length L = (N * N)%nat)
    by (unfold L; rewrite length_prod, !length_seq; reflexivity).
  lia.
Qed.

Lemma ones_row_major_irreflexive A N :
  (forall i, cell A i i <> Some 1) -> irreflexive (ones_row_major A N).
Proof.
  intros Hdiag a b Hin ->. unfold ones_row_major in Hin.
  apply in_map_iff in Hin. destruct Hin as [[i j] [He Hin]].
  unfold to_edge in He. cbn [fst snd] in He.
  injection He as Hi Hj. rewrite <- Hj in Hi.
  apply Nat2Z.inj in Hi. subst j.
  apply filter_In in Hin. destruct Hin as [_ Hone].
  unfold is_one in Hone. cbn [fst snd] in Hone.
  destruct (cell A i i) as [a |] eqn:Hc; [| discriminate].
  apply Z.eqb_eq in Hone. subst a. exact (Hdiag i Hc).
Qed.

(** X8.  On a square matrix without a 1 on its diagonal, [createRList], when
    its two allocations succeed, returns the cells equal to 1, and no
    pair of the list is a self-pair. *)
Theorem createRList_zero_diagonal A N :
  square A N ->
  (forall i, cell A i i <> Some 1) ->
  alloc_ok (2 * (N * N - N)) = true ->
  alloc_ok (2 * count_ones A) = true ->
  createRList alloc_ok A N = Ok (ones_row_major A N) /\
  irreflexive (ones_row_major A N).
Proof.
  intros Hsq Hdiag Ha1 Ha2. split.
  - apply createRList_row_major; try assumption.
    apply zero_diagonal_count; assumption.
  - apply ones_row_major_irreflexive. exact Hdiag.
Qed.

End EdgeListMore.

(** The matrix of the chain 0 -> 1 -> 2 and the list made from it. *)
Lemma createRList_pairs_witness :
  square [[0; 1; 0]; [0; 0; 1]; [0; 0; 0]] 3 /\
  (count_ones [[0; 1; 0]; [0; 0; 1]; [0; 0; 0]]%Z <= 3 * 3 - 3)%nat /\
  createRList alloc_always [[0; 1; 0]; [0; 0; 1]; [0; 0; 0]] 3
    = Ok [(0, 1); (1, 2)] /\
  NoDup [(0, 1); (1, 2)] /\
  length [(0, 1); (1, 2)] = count_ones [[0; 1; 0]; [0; 0; 1]; [0; 0; 0]] /\
  (forall a b,
      In (a, b) [(0, 1); (1, 2)] <->
      exists i j, a = Z.of_nat i /\ b = Z.of_nat j /\
                  (i < 3)%nat /\ (j < 3)%nat /\
                  cell [[0; 1; 0]; [0; 0; 1]; [0; 0; 0]] i j = Some 1).
Proof.
  assert (Hsq : square [[0; 1; 0]; [0; 0; 1]; [0; 0; 0]] 3).
  { split; [reflexivity |]. repeat constructor. }
  assert (Hc : (count_ones [[0; 1; 0]; [0; 0; 1]; [0; 0; 0]]%Z
                <= 3 * 3 - 3)%nat).
  { vm_compute. lia. }
  split; [exact Hsq |]. split; [exact Hc |]. split; [reflexivity |].
  exact (createRList_pairs alloc_always [[0; 1; 0]; [0; 0; 1]; [0; 0; 0]] 3
           [(0, 1); (1, 2)] Hsq Hc eq_refl).
Defined.


(** The matrix of the chain 0 -> 1 -> 2 has no 1 on its diagonal. *)
Lemma createRList_zero_diagonal_witness :
  square [[0; 1; 0]; [0; 0; 1]; [0; 0; 0]] 3 /\
  (forall i, cell [[0; 1; 0]; [0; 0; 1]; [0; 0; 0]] i i <> Some 1) /\
  createRList alloc_always [[0; 1; 0]; [0; 0; 1]; [0; 0; 0]] 3
    = Ok [(0, 1); (1, 2)] /\
  irreflexive [(0, 1); (1, 2)].
Proof.
  assert (Hsq : square [[0; 1; 0]; [0; 0; 1]; [0; 0; 0]] 3).
  { split; [reflexivity |]. repeat constructor. }
  assert (Hd : forall i, cell [[0; 1; 0]; [0; 0; 1]; [0; 0; 0]] i i <> Some 1).
  { intros [| [| [| i]]]; try discriminate.
    unfold cell. cbn [nth_error]. destruct i; discriminate. }
  split; [exact Hsq |]. split; [exact Hd |].
  exact (createRList_zero_diagonal alloc_always
           [[0; 1; 0]; [0; 0; 1]; [0; 0; 0]] 3 Hsq Hd eq_refl eq_refl).
Defined.

(** ** Further facts about [findPath] *)

Section PathMore.

Variable alloc_ok : nat -> bool.

Lemma findPath_returns_walk fuel R startCity targetCity p :
  findPath alloc_ok fuel R startCity targetCity = Ok (PathFound p) ->
  hd_error p = Some startCity /\
  nth_error p (length p - 1) = Some targetCity /\
  consecutive_in R p /\
  ((forall c, In c p -> ~ In (c, c) R) -> NoDup p).
Proof.
  unfold findPath. intros H.
  destruct (negb (has_edge R startCity targetCity)); [discriminate |].
  destruct (first_hop alloc_ok R startCity targetCity) as [s | x] eqn:Hf;
    cbn [bind] in H; [| discriminate].
  destruct (walk_loop alloc_ok fuel R targetCity s) as [s' | x] eqn:Hw;
    cbn [bind] in H; [| discriminate].
  inversion H. subst p.
  apply (first_hop_inv alloc_ok R _ _ R (incl_refl R)) in Hf.
  destruct (walk_loop_inv alloc_ok R _ _ fuel s s' Hf Hw) as [Hinv Hpc].
  unfold walk_inv, trail in Hinv. rewrite Hpc in Hinv.
  destruct Hinv as [H1 [H2 [H3 H4]]]. auto.
Qed.

Lemma consecutive_in_cons R a b q :
  consecutive_in R (a :: b :: q) ->
  In (a, b) R /\ consecutive_in R (b :: q).
Proof.
  intros Hc. split.
  - exact (Hc 0%nat a b eq_refl eq_refl).
  - intros i x y Hx Hy. exact (Hc (S i) x y Hx Hy).
Qed.

(** In an array where every composition is checked, a city with a
    self-pair has no other pair. *)
Lemma checked_self_pair_alone R c d :
  ~ unchecked R -> In (c, c) R ->
  (In (c, d) R -> d = c) /\ (In (d, c) R -> d = c).
Proof.
  intros Hu Hcc. split; intros Hd; destruct (Z.eq_dec d c) as [-> | Hne];
    try reflexivity; exfalso; apply Hu.
  - exists c, c, d. auto.
  - exists d, c, c. auto.
Qed.

Lemma self_pair_spreads R :
  ~ unchecked R ->
  forall q a, consecutive_in R (a :: q) ->
              (exists c, In c (a :: q) /\ In (c, c) R) ->
              In (a, a) R /\ Forall (fun x => x = a) q.
Proof.
  intros Hu q. induction q as [| b q IH]; intros a Hc [c [Hin Hcc]].
  - destruct Hin as [<- | []]. split; [exact Hcc | constructor].
  - apply consecutive_in_cons in Hc. destruct Hc as [Hab Hc].
    assert (Hba : b = a /\ In (a, a) R).
    { destruct Hin as [<- | Hin].
      - split; [| exact Hcc].
        exact (proj1 (checked_self_pair_alone R a b Hu Hcc) Hab).
      - destruct (IH b Hc (ex_intro _ c (conj Hin Hcc))) as [Hbb _].
        pose proof (proj2 (checked_self_pair_alone R b a Hu Hbb) Hab) as E.
        subst a. split; [reflexivity | exact Hbb]. }
    destruct Hba as [-> Haa]. split; [exact Haa |].
    destruct (IH a Hc (ex_intro _ a (conj (or_introl eq_refl) Haa)))
      as [_ Hall].
    constructor; [reflexivity | exact Hall].
Qed.

(** X9.  On an array that [createTransClosure] has returned, a path that
    [findPath] returns between two different cities goes through no city
    twice. *)
Theorem findPath_on_closure_NoDup fuel E R fuel' startCity targetCity p :
  createTransClosure alloc_ok fuel E = Ok R ->
  findPath alloc_ok fuel' R startCity targetCity = Ok (PathFound p) ->
  startCity <> targetCity ->
  NoDup p.
Proof.
  intros Hcl Hfp Hne.
  assert (Hu : ~ unchecked R).
  { apply (closure_pass_fixed_checked alloc_ok).
    exact (createTransClosure_fixed alloc_ok fuel E R Hcl). }
  destruct (findPath_returns_walk _ _ _ _ _ Hfp) as [Hhd [Hlast [Hc Hnd]]].
  apply Hnd. intros c Hin Hcc.
  destruct p as [| a q]; [destruct Hin |].
  cbn [hd_error] in Hhd. inversion Hhd. subst a.
  destruct (self_pair_spreads R Hu q startCity Hc
              (ex_intro _ c (conj Hin Hcc))) as [_ Hall].
  apply Hne. apply nth_error_In in Hlast.
  destruct Hlast as [Hl | Hl]; [exact Hl |].
  rewrite Forall_forall in Hall. exact (eq_sym (Hall _ Hl)).
Qed.

Lemma first_hop_home a l :
  (exists b, In (a, b) l) ->
  forall s, first_hop alloc_ok l a a = Ok s -> home_inv a s.
Proof.
  induction l as [| [x y] l IH]; intros [b Hb] s Hf; [destruct Hb |].
  cbn [first_hop] in Hf. destruct (x =? a) eqn:Hx.
  - destruct (alloc_ok 1); [| discriminate].
    destruct (y =? a).
    + destruct (alloc_ok 2); [| discriminate].
      inversion Hf. left. split; reflexivity.
    + inversion Hf. right. split; [reflexivity | left; reflexivity].
  - apply IH; [| exact Hf]. exists b.
    destruct Hb as [Hb | Hb]; [| exact Hb].
    inversion Hb. subst x y. rewrite Z.eqb_refl in Hx. discriminate.
Qed.

Lemma hop_home a s e s' :
  home_inv a s -> hop alloc_ok a (Ok s) e = Ok s' -> home_inv a s'.
Proof.
  intros Hs Hh. unfold hop in Hh. cbn [bind] in Hh.
  destruct (pathComplete s) eqn:Hpc; [inversion Hh; subst; exact Hs |].
  destruct Hs as [[Hc _] | [_ Hin]]; [congruence |].
  destruct e as [x b].
  destruct (x =? current s); [| inversion Hh; subst; right; auto].
  destruct (existsb (Z.eqb b) (path s)) eqn:Hex;
    [inversion Hh; subst; right; auto |].
  destruct (alloc_ok (length (path s) + 1)); [| discriminate].
  destruct (b =? a) eqn:Hb.
  - apply Z.eqb_eq in Hb. subst b.
    apply (existsb_eqb_In a (path s)) in Hin. congruence.
  - inversion Hh. right. split; [reflexivity |].
    cbn [path]. apply in_or_app. left. exact Hin.
Qed.

Lemma hop_fold_home a l :
  forall s s', home_inv a s ->
               fold_left (hop alloc_ok a) l (Ok s) = Ok s' -> home_inv a s'.
Proof.
  induction l as [| e l IH]; intros s s' Hs Hf.
  - cbn [fold_left] in Hf. inversion Hf. subst. exact Hs.
  - cbn [fold_left] in Hf.
    destruct (hop alloc_ok a (Ok s) e) as [s1 | x] eqn:Hh.
    + exact (IH s1 s' (hop_home a s e s1 Hs Hh) Hf).
    + rewrite hop_fold_err in Hf. discriminate.
Qed.

Lemma walk_loop_home a R fuel :
  forall s s', home_inv a s ->
               walk_loop alloc_ok fuel R a s = Ok s' -> path s' = [a; a].
Proof.
  induction fuel as [| fuel IH]; intros s s' Hs Hw; cbn [walk_loop] in Hw.
  - destruct (pathComplete s) eqn:Hpc; [| discriminate].
    inversion Hw. subst s'.
    destruct Hs as [[_ Hp] | [Hc _]]; [exact Hp | congruence].
  - destruct (pathComplete s) eqn:Hpc.
    + inversion Hw. subst s'.
      destruct Hs as [[_ Hp] | [Hc _]]; [exact Hp | congruence].
    + destruct (fold_left (hop alloc_ok a) R (Ok s)) as [s1 | x] eqn:Hf;
        cbn [bind] in Hw; [| discriminate].
      exact (IH s1 s' (hop_fold_home a R s s1 Hs Hf) Hw).
Qed.

(** X10.  Asked for the way from a city to itself, [findPath] can only return
    the path [a; a]: once the walk has left [a], the visited check keeps
    it from coming back. *)
Theorem findPath_to_itself fuel R a p :
  findPath alloc_ok fuel R a a = Ok (PathFound p) -> p = [a; a].
Proof.
  unfold findPath. intros H.
  destruct (has_edge R a a) eqn:Hfound; cbn [negb] in H; [| discriminate].
  apply has_edge_In in Hfound.
  destruct (first_hop alloc_ok R a a) as [s | x] eqn:Hf;
    cbn [bind] in H; [| discriminate].
  destruct (walk_loop alloc_ok fuel R a s) as [s' | x] eqn:Hw;
    cbn [bind] in H; [| discriminate].
  inversion H. subst p.
  apply (walk_loop_home a R fuel s s'); [| exact Hw].
  exact (first_hop_home a R (ex_intro _ a Hfound) s Hf).
Qed.

(** The first [for] of [findPath] stops at the first pair that leaves
    the start city. *)
Lemma first_hop_find l startCity targetCity a x :
  find (fun e => fst e =? startCity) l = Some (a, x) ->
  first_hop alloc_ok l startCity targetCity =
  if alloc_ok 1 then
    if x =? targetCity then
      if alloc_ok 2 then Ok (mkWalk [startCity; targetCity] x true)
      else Err AllocError
    else Ok (mkWalk [startCity] x false)
  else Err AllocError.
Proof.
  induction l as [| [y z] l IH]; intros Hfind; [discriminate |].
  cbn [find fst] in Hfind. cbn [first_hop].
  destruct (y =? startCity).
  - inversion Hfind. subst. reflexivity.
  - exact (IH Hfind).
Qed.

Lemma hop_fold_stay t s l :
  pathComplete s = false ->
  (forall a b, In (a, b) l -> a = current s -> In b (path s)) ->
  fold_left (hop alloc_ok t) l (Ok s) = Ok s.
Proof.
  intros Hpc. induction l as [| [a b] l IH]; intros Hall; [reflexivity |].
  cbn [fold_left].
  assert (Hh : hop alloc_ok t (Ok s) (a, b) = Ok s).
  { unfold hop. cbn [bind]. rewrite Hpc.
    destruct (a =? current s) eqn:Ha; [| reflexivity].
    apply Z.eqb_eq in Ha.
    pose proof (Hall a b (or_introl eq_refl) Ha) as Hin.
    apply existsb_eqb_In in Hin. rewrite Hin. reflexivity. }
  rewrite Hh. apply IH. intros a' b' Hin. apply Hall. right. exact Hin.
Qed.

(** X11.  When the first pair that leaves the start city leads to a city other
    than the target, from which every pair leads back to the start city,
    [findPath] never returns, although the pair of the query is in [R]:
    once the first [malloc] has succeeded, the [while] loop runs for
    ever. *)
Theorem findPath_dead_end fuel R startCity targetCity x :
  In (startCity, targetCity) R ->
  find (fun e => fst e =? startCity) R = Some (startCity, x) ->
  x <> targetCity ->
  (forall b, In (x, b) R -> b = startCity) ->
  findPath alloc_ok fuel R startCity targetCity =
  if alloc_ok 1 then Err OutOfFuel else Err AllocError.
Proof.
  intros Hin Hfind Hx Hback. unfold findPath.
  apply has_edge_In in Hin. rewrite Hin. cbn [negb].
  rewrite (first_hop_find R startCity targetCity startCity x Hfind).
  apply Z.eqb_neq in Hx. rewrite Hx.
  destruct (alloc_ok 1); [| reflexivity]. cbn [bind].
  rewrite (walk_loop_stuck alloc_ok R targetCity (mkWalk [startCity] x false));
    [reflexivity | reflexivity |].
  apply hop_fold_stay; [reflexivity |].
  cbn [current path]. intros a b Hab ->. left.
  exact (eq_sym (Hback b Hab)).
Qed.

(** X12.  When the first pair that leaves the start city is the pair of the
    query, [findPath] answers with the two cities, without entering its
    [while] loop. *)
Theorem findPath_direct fuel R startCity targetCity :
  find (fun e => fst e =? startCity) R = Some (startCity, targetCity) ->
  findPath alloc_ok fuel R startCity targetCity =
  if alloc_ok 1 then
    if alloc_ok 2 then Ok (PathFound [startCity; targetCity])
    else Err AllocError
  else Err AllocError.
Proof.
  intros Hfind. unfold findPath.
  assert (Hin : has_edge R startCity targetCity = true).
  { apply has_edge_In. exact (proj1 (find_some _ _ Hfind)). }
  rewrite Hin. cbn [negb].
  rewrite (first_hop_find R startCity targetCity startCity targetCity Hfind).
  rewrite Z.eqb_refl.
  destruct (alloc_ok 1); [| reflexivity].
  destruct (alloc_ok 2); [| reflexivity].
  cbn [bind]. destruct fuel; reflexivity.
Qed.

End PathMore.

(** The closure of the chain [(0,1)], [(1,2)] and the way from 0 to 2. *)
Lemma findPath_on_closure_NoDup_witness :
  createTransClosure alloc_always 2 [(0, 1); (1, 2)]
    = Ok [(0, 1); (1, 2); (0, 2)] /\
  findPath alloc_always 1 [(0, 1); (1, 2); (0, 2)] 0 2
    = Ok (PathFound [0; 1; 2]) /\
  0 <> 2 /\
  NoDup [0; 1; 2].
Proof.
  assert (H02 : 0 <> 2) by discriminate.
  split; [reflexivity |]. split; [reflexivity |]. split; [exact H02 |].
  exact (findPath_on_closure_NoDup alloc_always 2 [(0, 1); (1, 2)]
           [(0, 1); (1, 2); (0, 2)] 1 0 2 [0; 1; 2] eq_refl eq_refl H02).
Defined.

(** A self-pair at city 4 behind another pair. *)
Lemma findPath_to_itself_witness :
  findPath alloc_always 0 [(1, 2); (4, 4)] 4 4 = Ok (PathFound [4; 4]) /\
  [4; 4] = [4; 4].
Proof.
  split; [reflexivity |].
  exact (findPath_to_itself alloc_always 0 [(1, 2); (4, 4)] 4 [4; 4] eq_refl).
Defined.

(** Cities 0 and 1 joined both ways, and city 2 reached from 0 only. *)
Lemma findPath_dead_end_witness :
  In (0, 2) [(0, 1); (1, 0); (0, 2)] /\
  find (fun e => fst e =? 0) [(0, 1); (1, 0); (0, 2)] = Some (0, 1) /\
  1 <> 2 /\
  (forall b, In (1, b) [(0, 1); (1, 0); (0, 2)] -> b = 0) /\
  findPath alloc_always 7 [(0, 1); (1, 0); (0, 2)] 0 2 = Err OutOfFuel.
Proof.
  assert (Hin : In (0, 2) [(0, 1); (1, 0); (0, 2)])
    by (right; right; left; reflexivity).
  assert (H12 : 1 <> 2) by discriminate.
  assert (Hback : forall b, In (1, b) [(0, 1); (1, 0); (0, 2)] -> b = 0).
  { intros b [H | [H | [H | []]]]; inversion H; reflexivity. }
  split; [exact Hin |]. split; [reflexivity |]. split; [exact H12 |].
  split; [exact Hback |].
  exact (findPath_dead_end alloc_always 7 [(0, 1); (1, 0); (0, 2)] 0 2 1
           Hin eq_refl H12 Hback).
Defined.

(** The pair of the query is the first to leave city 0. *)
Lemma findPath_direct_witness :
  find (fun e => fst e =? 0) [(3, 0); (0, 2); (0, 1)] = Some (0, 2) /\
  findPath alloc_always 0 [(3, 0); (0, 2); (0, 1)] 0 2
    = Ok (PathFound [0; 2]).
Proof.
  split; [reflexivity |].
  exact (findPath_direct alloc_always 0 [(3, 0); (0, 2); (0, 1)] 0 2 eq_refl).
Defined.

(** ** Facts about the text functions *)

Section TextFacts.

Variable alloc_ok : nat -> bool.
Variable alloc_rows : Z -> bool.
Variable alloc_bytes : nat -> bool.
Variable fopen_w : String.string -> bool.

Lemma append_assoc (a b c : String.string) :
  (a +++ b) +++ c = a +++ (b +++ c).
Proof.
  induction a as [| x a IH]; cbn [String.append]; [reflexivity |].
  rewrite IH. reflexivity.
Qed.

Lemma append_nil_r (a : String.string) : a +++ String.EmptyString = a.
Proof.
  induction a as [| x a IH]; cbn [String.append]; [reflexivity |].
  rewrite IH. reflexivity.
Qed.

(** *** readFromFile *)

Lemma read_cell_fold_err row_ok l e :
  fold_left (read_cell row_ok) l (Err e) = Err e.
Proof. induction l as [| x l IH]; cbn [fold_left]; [reflexivity | exact IH]. Qed.

Lemma read_row_fold_err row_ok N l e :
  fold_left (read_row row_ok N) l (Err e) = Err e.
Proof. induction l as [| x l IH]; cbn [fold_left]; [reflexivity | exact IH]. Qed.

Lemma read_cell_eq row fp j :
  read_cell true (Ok (row, fp)) j =
  Ok (row ++ [fst (fgetc fp) - 48], snd (fgetc (snd (fgetc fp)))).
Proof.
  unfold read_cell. cbn [bind].
  destruct (fgetc fp) as [k fp1]. cbn [fst snd].
  destruct (fgetc fp1) as [k' fp2]. reflexivity.
Qed.

Lemma read_row_eq row_ok N A fp i :
  read_row row_ok N (Ok (A, fp)) i =
  r <- fold_left (read_cell row_ok) (seq 0 N) (Ok ([], fp)) ;;
  Ok (A ++ [fst r], snd r).
Proof.
  unfold read_row. cbn [bind].
  destruct (fold_left (read_cell row_ok) (seq 0 N) (Ok ([], fp)))
    as [[row fp'] | e]; reflexivity.
Qed.

(** A row laid out as expected is read as the values of its cells. *)
Lemma read_cells_layout row :
  forall a acc rest,
    fold_left (read_cell true) (seq a (length row))
              (Ok (acc, row_text row +++ rest))
    = Ok (acc ++ map (fun p => digit (fst p)) row, rest).
Proof.
  induction row as [| [c sep] row IH]; intros a acc rest.
  - cbn [length seq fold_left map]. rewrite app_nil_r. reflexivity.
  - cbn [length seq fold_left]. rewrite read_cell_eq.
    cbn [row_text fold_right fst snd String.append fgetc].
    fold (row_text row). rewrite IH. cbn [map fst].
    rewrite <- app_assoc. reflexivity.
Qed.

Lemma read_rows_layout N rows :
  Forall (fun row => length row = N) rows ->
  forall a acc rest,
    fold_left (read_row true N) (seq a (length rows))
              (Ok (acc, rows_text rows +++ rest))
    = Ok (acc ++ map (map (fun p => digit (fst p))) rows, rest).
Proof.
  induction 1 as [| row rows Hrow _ IH]; intros a acc rest.
  - cbn [length seq fold_left map]. rewrite app_nil_r. reflexivity.
  - cbn [length seq fold_left]. rewrite read_row_eq.
    cbn [rows_text fold_right]. fold (rows_text rows).
    rewrite append_assoc, <- Hrow, read_cells_layout. cbn [bind app fst snd].
    rewrite Hrow, IH. cbn [map]. rewrite <- app_assoc. reflexivity.
Qed.

(** X13.  The input format.  On a file that holds a character for the size
    [N], one more character, and then, for each of the [N] rows, [N]
    times a character for the cell and a character after it,
    [readFromFile] returns the table of the cell characters minus ['0'],
    whatever the characters in between and whatever follows. *)
Theorem readFromFile_layout n sep rows rest :
  digit n = Z.of_nat (length rows) ->
  Forall (fun row => length row = length rows) rows ->
  alloc_rows (Z.of_nat (length rows)) = true ->
  alloc_ok (length rows) = true ->
  readFromFile alloc_ok alloc_rows
    (Some (String.String n (String.String sep (rows_text rows +++ rest))))
  = Ok (Matrix (map (map (fun p => digit (fst p))) rows)
               (Z.of_nat (length rows))).
Proof.
  intros Hn Hrows Ha1 Ha2. unfold readFromFile. cbn [fgetc].
  fold (digit n). rewrite Hn, Ha1, Nat2Z.id, Ha2.
  rewrite (read_rows_layout (length rows) rows Hrows).
  reflexivity.
Qed.

(** Whatever the text, the cells of a row are read. *)
Lemma read_cells_total n :
  forall a acc fp,
  exists row fp',
    fold_left (read_cell true) (seq a n) (Ok (acc, fp))
    = Ok (acc ++ row, fp') /\ length row = n.
Proof.
  induction n as [| n IH]; intros a acc fp.
  - exists [], fp. cbn [seq fold_left]. rewrite app_nil_r. auto.
  - cbn [seq fold_left]. rewrite read_cell_eq.
    destruct (IH (S a) (acc ++ [fst (fgetc fp) - 48])
                 (snd (fgetc (snd (fgetc fp))))) as [row [fp' [Hf Hlen]]].
    exists ((fst (fgetc fp) - 48) :: row), fp'. rewrite Hf, <- app_assoc.
    split; [reflexivity | cbn [length]; rewrite Hlen; reflexivity].
Qed.

Lemma read_rows_total N m :
  forall a acc fp,
  exists A fp',
    fold_left (read_row true N) (seq a m) (Ok (acc, fp))
    = Ok (acc ++ A, fp') /\
    length A = m /\ Forall (fun row => length row = N) A.
Proof.
  induction m as [| m IH]; intros a acc fp.
  - exists [], fp. cbn [seq fold_left]. rewrite app_nil_r. auto.
  - cbn [seq fold_left]. rewrite read_row_eq.
    destruct (read_cells_total N 0 [] fp) as [row [fp1 [Hc Hrow]]].
    rewrite Hc. cbn [bind app fst snd].
    destruct (IH (S a) (acc ++ [row]) fp1) as [A [fp' [Hf [Hlen Hall]]]].
    exists (row :: A), fp'. rewrite Hf, <- app_assoc.
    split; [reflexivity |]. split; [cbn [length]; rewrite Hlen; reflexivity |].
    constructor; assumption.
Qed.

(** X14.  Once the first character is ['0'] or above, no content makes
    [readFromFile] fail: whatever follows that character, even nothing,
    if the allocations succeed it returns a table of [N] rows of [N]
    cells, [N] being the first character minus ['0']. *)
Theorem readFromFile_square fp :
  0 <= fst (fgetc fp) - 48 ->
  alloc_rows (fst (fgetc fp) - 48) = true ->
  (0 < fst (fgetc fp) - 48 ->
   alloc_ok (Z.to_nat (fst (fgetc fp) - 48)) = true) ->
  exists A,
    readFromFile alloc_ok alloc_rows (Some fp)
    = Ok (Matrix A (fst (fgetc fp) - 48)) /\
    square A (Z.to_nat (fst (fgetc fp) - 48)).
Proof.
  intros _ Ha1 Ha2. unfold readFromFile.
  destruct (fgetc fp) as [c fp1]. cbn [fst] in *. rewrite Ha1.
  destruct (fgetc fp1) as [c' fp2].
  destruct (Z.to_nat (c - 48)) as [| m] eqn:Hm.
  - exists []. cbn [seq fold_left bind fst].
    split; [reflexivity | split; [reflexivity | constructor]].
  - rewrite Ha2 by lia.
    destruct (read_rows_total (S m) (S m) 0 [] fp2)
      as [A [fp' [Hf [Hlen Hall]]]].
    exists A. rewrite Hf. cbn [bind fst app].
    split; [reflexivity | split; assumption].
Qed.

Lemma read_cells_eof n :
  forall a acc,
    fold_left (read_cell true) (seq a n) (Ok (acc, String.EmptyString))
    = Ok (acc ++ repeat (-49) n, String.EmptyString).
Proof.
  induction n as [| n IH]; intros a acc.
  - cbn [seq fold_left repeat]. rewrite app_nil_r. reflexivity.
  - cbn [seq fold_left repeat]. rewrite read_cell_eq. cbn [fgetc fst snd].
    rewrite IH, <- app_assoc. reflexivity.
Qed.

Lemma read_rows_eof N m :
  forall a acc,
    fold_left (read_row true N) (seq a m) (Ok (acc, String.EmptyString))
    = Ok (acc ++ repeat (repeat (-49) N) m, String.EmptyString).
Proof.
  induction m as [| m IH]; intros a acc.
  - cbn [seq fold_left repeat]. rewrite app_nil_r. reflexivity.
  - cbn [seq fold_left repeat]. rewrite read_row_eq.
    rewrite read_cells_eof. cbn [bind app fst snd].
    rewrite IH, <- app_assoc. reflexivity.
Qed.

(** X15.  The end of the file is not noticed.  On a file that stops after its
    first line, every cell of the table is [EOF] minus ['0'], that is
    -49, and [readFromFile] returns as on any other file. *)
Theorem readFromFile_short n t :
  (String.length t <= 1)%nat ->
  alloc_rows (digit n) = true ->
  (0 < digit n -> alloc_ok (Z.to_nat (digit n)) = true) ->
  readFromFile alloc_ok alloc_rows (Some (String.String n t))
  = Ok (Matrix (repeat (repeat (-49) (Z.to_nat (digit n)))
                       (Z.to_nat (digit n)))
               (digit n)).
Proof.
  intros Ht Ha1 Ha2. unfold readFromFile. cbn [fgetc].
  fold (digit n). rewrite Ha1.
  assert (Hfp : snd (fgetc t) = String.EmptyString).
  { destruct t as [| c t]; [reflexivity |].
    destruct t; [reflexivity | cbn [String.length] in Ht; lia]. }
  destruct (fgetc t) as [c' fp2]. cbn [snd] in Hfp. subst fp2.
  destruct (Z.to_nat (digit n)) as [| m] eqn:Hm.
  - reflexivity.
  - rewrite Ha2 by lia. rewrite read_rows_eof. reflexivity.
Qed.

(** X16.  A row that could not be allocated is not reported: when the table of
    row pointers is allocated and the rows are not, [readFromFile] does
    not return [false]; it goes on and stores the first cell through a
    null row. *)
Theorem readFromFile_row_unchecked fp :
  0 < fst (fgetc fp) - 48 ->
  alloc_rows (fst (fgetc fp) - 48) = true ->
  alloc_ok (Z.to_nat (fst (fgetc fp) - 48)) = false ->
  readFromFile alloc_ok alloc_rows (Some fp) = Err OutOfBounds.
Proof.
  intros Hpos Ha1 Ha2. unfold readFromFile.
  destruct (fgetc fp) as [c fp1]. cbn [fst] in *. rewrite Ha1, Ha2.
  destruct (fgetc fp1) as [c' fp2].
  destruct (Z.to_nat (c - 48)) as [| m] eqn:Hm; [lia |].
  cbn [seq fold_left]. rewrite read_row_eq. cbn [seq fold_left].
  assert (Hc : read_cell false (Ok ([], fp2)) 0%nat = Err OutOfBounds).
  { unfold read_cell. cbn [bind]. destruct (fgetc fp2). reflexivity. }
  rewrite Hc, read_cell_fold_err. cbn [bind].
  rewrite read_row_fold_err. reflexivity.
Qed.

(** *** printNeighbTable *)

Lemma print_cell_fold_err A i l e :
  fold_left (print_cell A i) l (Err e) = Err e.
Proof. induction l as [| x l IH]; cbn [fold_left]; [reflexivity | exact IH]. Qed.

Lemma cat_cons_append out x l : out +++ cat (x :: l) = (out +++ x) +++ cat l.
Proof. cbn [cat fold_right]. rewrite append_assoc. reflexivity. Qed.

Lemma say_all {A : Type} (show : A -> String.string) (l : list A) :
  forall out,
    fold_left (fun st a => out <- st ;; Ok (out +++ show a)) l (Ok out)
    = Ok (out +++ cat (map show l)).
Proof.
  induction l as [| a l IH]; intros out.
  - cbn [fold_left map cat fold_right]. rewrite append_nil_r. reflexivity.
  - cbn [fold_left map bind]. rewrite IH, cat_cons_append. reflexivity.
Qed.

(** The cells of a row that exists are shown one after the other. *)
Lemma print_cells_row A i row out :
  nth_error A i = Some row ->
  fold_left (print_cell A i) (seq 0 (length row)) (Ok out)
  = Ok (out +++ cat (map (fun a => dec a +++ " "%string) row)).
Proof.
  intros Hrow.
  destruct (fold_left_indexed (print_cell A i)
              (fun st a => out <- st ;; Ok (out +++ dec a +++ " "%string))
              (fun _ => True) row) with (s := Ok out) as [He _].
  - intros s j a _ Hj. split; [| exact I].
    unfold print_cell, cell. rewrite Hrow, Hj. reflexivity.
  - exact I.
  - rewrite He. apply say_all.
Qed.

Lemma print_rows A N out :
  square A N ->
  fold_left (print_row A N) (seq 0 (length A)) (Ok out)
  = Ok (out +++ cat (map row_line A)).
Proof.
  intros [Hlen Hrows].
  destruct (fold_left_indexed (print_row A N)
              (fun st row => out <- st ;; Ok (out +++ row_line row))
              (fun _ => True) A) with (s := Ok out) as [He _].
  - intros s i row _ Hi. split; [| exact I].
    unfold print_row. destruct s as [o | e].
    + rewrite Forall_forall in Hrows.
      rewrite <- (Hrows row (nth_error_In _ _ Hi)).
      rewrite (print_cells_row A i row o Hi). cbn [bind].
      unfold row_line. rewrite append_assoc. reflexivity.
    + rewrite print_cell_fold_err. reflexivity.
  - exact I.
  - rewrite He. apply say_all.
Qed.

(** X17.  On a table of [N] rows of [N] cells, [printNeighbTable] prints its
    title, then every row on a line of its own, each cell followed by a
    space, then an empty line; it reads no cell outside the table. *)
Theorem printNeighbTable_text A N :
  square A N ->
  printNeighbTable A N
  = Ok ("Neighbor table"%string +++ nl +++ cat (map row_line A) +++ nl).
Proof.
  intros Hsq. unfold printNeighbTable.
  destruct Hsq as [Hlen Hrows]. subst N.
  rewrite (print_rows A (length A) _ (conj eq_refl Hrows)). cbn [bind].
  rewrite !append_assoc. reflexivity.
Qed.

(** *** printTransClosure and writeFile *)

Lemma table_item_fold_err F l e :
  fold_left (table_item F) l (Err e) = Err e.
Proof. induction l as [| x l IH]; cbn [fold_left]; [reflexivity | exact IH]. Qed.

Lemma table_item_ext F1 F2 l :
  (forall i, In i l -> nth_error F1 i = nth_error F2 i) ->
  forall st, fold_left (table_item F1) l st = fold_left (table_item F2) l st.
Proof.
  induction l as [| i l IH]; intros H st; [reflexivity |].
  cbn [fold_left].
  assert (Hi : table_item F1 st i = table_item F2 st i).
  { unfold table_item. rewrite (H i (or_introl eq_refl)). reflexivity. }
  rewrite Hi. apply IH. intros j Hj. apply H. right. exact Hj.
Qed.

Lemma concat_snoc sep l x :
  String.concat sep (l ++ [x]) =
  match l with
  | [] => x
  | _ :: _ => String.concat sep l +++ sep +++ x
  end.
Proof.
  induction l as [| a l IH]; [reflexivity |].
  destruct l as [| b l]; [reflexivity |].
  change (String.concat sep ((a :: b :: l) ++ [x]))
    with (a +++ sep +++ String.concat sep ((b :: l) ++ [x])).
  rewrite IH.
  change (String.concat sep (a :: b :: l))
    with (a +++ sep +++ String.concat sep (b :: l)).
  rewrite !append_assoc. reflexivity.
Qed.

Lemma flat_length R : length (flat R) = sizeOfR R.
Proof.
  unfold flat, sizeOfR. induction R as [| e R IH]; [reflexivity |].
  cbn [flat_map app length]. rewrite IH. lia.
Qed.

Lemma even_item n : ((2 * n) mod 2 =? 0)%nat = true.
Proof. rewrite Nat.mul_comm, Nat.Div0.mod_mul. reflexivity. Qed.

Lemma odd_item n : (S (2 * n) mod 2 =? 0)%nat = false.
Proof.
  replace (S (2 * n)) with (1 + n * 2)%nat by lia.
  rewrite Nat.Div0.mod_add. reflexivity.
Qed.

(** The loop over the cells of the array writes its pairs, one per line:
    the line breaks come between the pairs. *)
Lemma table_items_lines R :
  forall out, table_items R out = Ok (out +++ lines R).
Proof.
  induction R as [| e R IH] using rev_ind; intros out.
  - unfold table_items, lines. cbn [sizeOfR length Nat.mul seq fold_left map].
    cbn [String.concat]. rewrite append_nil_r. reflexivity.
  - unfold table_items.
    assert (Hsize : sizeOfR (R ++ [e]) = S (S (sizeOfR R))).
    { unfold sizeOfR. rewrite length_app. cbn [length]. lia. }
    assert (Hflat : flat (R ++ [e]) = flat R ++ [fst e; snd e]).
    { unfold flat. rewrite flat_map_app. cbn [flat_map app]. reflexivity. }
    rewrite Hsize, Hflat, !seq_S, !fold_left_app. cbn [Nat.add fold_left].
    rewrite (table_item_ext (flat R ++ [fst e; snd e]) (flat R)).
    + fold (table_items R out). rewrite IH.
      assert (H1 : nth_error (flat R ++ [fst e; snd e]) (sizeOfR R)
                   = Some (fst e)).
      { rewrite nth_error_app2; rewrite flat_length; [| lia].
        rewrite Nat.sub_diag. reflexivity. }
      assert (H2 : nth_error (flat R ++ [fst e; snd e]) (S (sizeOfR R))
                   = Some (snd e)).
      { rewrite nth_error_app2; rewrite flat_length; [| lia].
        replace (S (sizeOfR R) - sizeOfR R)%nat with 1%nat by lia.
        reflexivity. }
      unfold table_item. cbn [bind]. rewrite H1. cbn [bind]. rewrite H2.
      unfold sizeOfR.
      rewrite even_item, odd_item. cbn [andb].
      unfold lines. rewrite map_app. cbn [map]. rewrite concat_snoc.
      destruct R as [| r R].
      * cbn [length Nat.mul Nat.ltb Nat.leb map String.concat].
        rewrite append_nil_r. unfold line. rewrite !append_assoc.
        reflexivity.
      * cbn [length Nat.mul Nat.add Nat.ltb Nat.leb map].
        unfold line at 3. rewrite !append_assoc. reflexivity.
    + intros i Hi. apply in_seq in Hi.
      apply nth_error_app1. rewrite flat_length. lia.
Qed.

(** X18.  [printTransClosure] prints an empty line, the title, and the pairs
    of the array, one per line, written [a -> b]; it reads no cell
    outside the array. *)
Theorem printTransClosure_text R :
  printTransClosure R
  = Ok (nl +++ "R* Table"%string +++ nl +++ lines R +++ nl).
Proof.
  unfold printTransClosure. rewrite table_items_lines. cbn [bind].
  rewrite !append_assoc. reflexivity.
Qed.

(** X19.  [writeFile] returns [true] exactly when its [malloc] and its [fopen]
    succeed; it then has written, in the file named [out-] followed by
    the name of the input file, the title and the pairs of the array,
    one per line, written [a -> b], and an empty line.  Otherwise it has
    written no file. *)
Theorem writeFile_file R inFileName :
  exists w,
    writeFile alloc_bytes fopen_w R inFileName = Ok w /\
    returned w =
      (alloc_bytes (4 + String.length inFileName + 1)
       && fopen_w ("out-"%string +++ inFileName)) /\
    file w =
      if returned w
      then Some ("out-"%string +++ inFileName,
                 "R* Table"%string +++ nl +++ lines R +++ nl +++ nl)
      else None.
Proof.
  unfold writeFile. cbn [String.length].
  destruct (alloc_bytes (4 + String.length inFileName + 1)).
  - destruct (fopen_w ("out-"%string +++ inFileName)).
    + rewrite table_items_lines. cbn [bind].
      eexists. split; [reflexivity |]. cbn [returned file andb].
      split; [reflexivity |]. rewrite !append_assoc. reflexivity.
    + eexists. split; [reflexivity |]. split; reflexivity.
  - eexists. split; [reflexivity |]. split; reflexivity.
Qed.

End TextFacts.

(** The file of a table of two cities joined both ways. *)
Lemma readFromFile_layout_witness :
  String.String "2"%char
    (String.String "010"%char
       (rows_text [[("0"%char, " "%char); ("1"%char, "010"%char)];
                   [("1"%char, " "%char); ("0"%char, "010"%char)]]
        +++ String.EmptyString))
  = "2"%string +++ nl +++ "0 1"%string +++ nl +++ "1 0"%string +++ nl /\
  readFromFile alloc_always (fun _ => true)
    (Some ("2"%string +++ nl +++ "0 1"%string +++ nl +++ "1 0"%string +++ nl))
  = Ok (Matrix [[0; 1]; [1; 0]] 2).
Proof.
  split; [reflexivity |].
  apply (readFromFile_layout alloc_always (fun _ => true)
           "2"%char "010"%char
           [[("0"%char, " "%char); ("1"%char, "010"%char)];
            [("1"%char, " "%char); ("0"%char, "010"%char)]]
           String.EmptyString).
  - reflexivity.
  - repeat constructor.
  - reflexivity.
  - reflexivity.
Defined.

(** The same file: its first character is ['2'], and the table read has
    two rows of two cells. *)
Lemma readFromFile_square_witness :
  0 <= fst (fgetc ("2"%string +++ nl +++ "0 1"%string +++ nl
                   +++ "1 0"%string +++ nl)) - 48 /\
  exists A,
    readFromFile alloc_always (fun _ => true)
      (Some ("2"%string +++ nl +++ "0 1"%string +++ nl
             +++ "1 0"%string +++ nl))
    = Ok (Matrix A 2) /\
    square A 2.
Proof.
  assert (H0 : 0 <= fst (fgetc ("2"%string +++ nl +++ "0 1"%string +++ nl
                                +++ "1 0"%string +++ nl)) - 48).
  { cbn. discriminate. }
  split; [exact H0 |].
  apply (readFromFile_square alloc_always (fun _ => true)
           ("2"%string +++ nl +++ "0 1"%string +++ nl
            +++ "1 0"%string +++ nl) H0).
  - reflexivity.
  - intros _. reflexivity.
Defined.

(** A file that holds the size 3 and nothing else. *)
Lemma readFromFile_short_witness :
  (String.length String.EmptyString <= 1)%nat /\
  readFromFile alloc_always (fun _ => true) (Some "3"%string)
  = Ok (Matrix [[-49; -49; -49]; [-49; -49; -49]; [-49; -49; -49]] 3).
Proof.
  assert (H : (String.length String.EmptyString <= 1)%nat)
    by (cbn [String.length]; lia).
  split; [exact H |].
  apply (readFromFile_short alloc_always (fun _ => true)
           "3"%char String.EmptyString H).
  - reflexivity.
  - intros _. reflexivity.
Defined.

(** The file of two cities, read when no row can be allocated. *)
Lemma readFromFile_row_unchecked_witness :
  readFromFile (fun _ => false) (fun _ => true)
    (Some ("2"%string +++ nl +++ "0 1"%string +++ nl +++ "1 0"%string +++ nl))
  = Err OutOfBounds.
Proof.
  apply (readFromFile_row_unchecked (fun _ => false) (fun _ => true)
           ("2"%string +++ nl +++ "0 1"%string +++ nl
            +++ "1 0"%string +++ nl)).
  - reflexivity.
  - reflexivity.
  - reflexivity.
Defined.

(** The table of two cities joined both ways, as printed. *)
Lemma printNeighbTable_text_witness :
  square [[0; 1]; [1; 0]] 2 /\
  printNeighbTable [[0; 1]; [1; 0]] 2
  = Ok ("Neighbor table"%string +++ nl +++ "0 1 "%string +++ nl
        +++ "1 0 "%string +++ nl +++ nl).
Proof.
  assert (Hsq : square [[0; 1]; [1; 0]] 2).
  { split; [reflexivity |]. repeat constructor. }
  split; [exact Hsq |].
  exact (printNeighbTable_text [[0; 1]; [1; 0]] 2 Hsq).
Defined.

(** ** From the table to the closure, as [main] chains them *)

Lemma createTransClosure_NoDup_run alloc_ok fuel :
  forall E R, NoDup E -> createTransClosure alloc_ok fuel E = Ok R -> NoDup R.
Proof.
  induction fuel as [| fuel IH]; intros E R Hnd H; [discriminate |].
  pose proof (createTransClosure_checked alloc_ok _ _ _ H) as Hu.
  cbn [createTransClosure] in H.
  destruct (closure_pass alloc_ok E) as [[R1 ch] | e] eqn:Hp; cbn [bind] in H;
    [| discriminate].
  pose proof (closure_pass_NoDup alloc_ok _ _ _ Hu Hnd Hp) as Hnd1.
  destruct ch.
  - eapply IH; eassumption.
  - inversion H. subst. exact Hnd1.
Qed.

Lemma irreflexive_checked E : irreflexive E -> ~ unchecked E.
Proof.
  intros Hirr [u [v [w [Huv [Hvw [_ [-> | ->]]]]]]].
  - exact (Hirr v v Huv eq_refl).
  - exact (Hirr w w Hvw eq_refl).
Qed.

(** X20.  On a square table without a 1 on its diagonal, with allocations
    that succeed, [createRList] followed by [createTransClosure] ends
    with an array that has no repeated pair and no self-pair, and that holds
    the pair [(a,b)] exactly when [a] and [b] are different cities and
    [b] can be reached from [a] along cells equal to 1. *)
Theorem matrix_closure A N :
  square A N ->
  (forall i, cell A i i <> Some 1) ->
  exists R,
    createRList alloc_always A N = Ok (ones_row_major A N) /\
    createTransClosure alloc_always
      (S (missing (cities (ones_row_major A N)) (ones_row_major A N)))
      (ones_row_major A N) = Ok R /\
    NoDup R /\ irreflexive R /\
    (forall a b, In (a, b) R <->
                 a <> b /\ reachable (ones_row_major A N) a b).
Proof.
  intros Hsq Hdiag. set (E := ones_row_major A N).
  assert (HE : createRList alloc_always A N = Ok E).
  { apply createRList_row_major; try reflexivity; [exact Hsq |].
    apply zero_diagonal_count; assumption. }
  assert (Hirr : irreflexive E)
    by (apply ones_row_major_irreflexive; exact Hdiag).
  assert (Hnd : NoDup E) by apply ones_row_major_NoDup.
  destruct (createTransClosure_alloc_always (S (missing (cities E) E)) E)
    as [[R HR] | Hout].
  - exists R. split; [exact HE |]. split; [exact HR |].
    destruct (createTransClosure_appends alloc_always _ _ _ HR)
      as [added [HRE Hadded]].
    assert (HirrR : irreflexive R).
    { intros a b Hab. rewrite HRE in Hab. apply in_app_or in Hab.
      destruct Hab as [Hab | Hab]; [exact (Hirr a b Hab) |].
      rewrite Forall_forall in Hadded. exact (Hadded _ Hab). }
    split; [exact (createTransClosure_NoDup_run alloc_always _ E R Hnd HR) |].
    split; [exact HirrR |].
    intros a b. split.
    + intros Hab. split; [exact (HirrR a b Hab) |].
      apply (createTransClosure_sound_from alloc_always E
               (S (missing (cities E) E)) E R);
        [intros x y Hxy; exact (reach_edge E x y Hxy) | exact HR | exact Hab].
    + intros [Hne Hr].
      exact (reachable_in_fixed alloc_always E R
               (createTransClosure_incl alloc_always _ E R HR)
               (createTransClosure_fixed alloc_always _ E R HR) a b Hr Hne).
  - exfalso. revert Hout.
    apply (createTransClosure_enough_fuel_checked alloc_always (cities E));
      [apply irreflexive_checked; exact Hirr | apply within_cities | lia].
Qed.

(** The table of the chain 0 -> 1 -> 2. *)
Lemma matrix_closure_witness :
  square [[0; 1; 0]; [0; 0; 1]; [0; 0; 0]] 3 /\
  (forall i, cell [[0; 1; 0]; [0; 0; 1]; [0; 0; 0]] i i <> Some 1) /\
  exists R,
    createRList alloc_always [[0; 1; 0]; [0; 0; 1]; [0; 0; 0]] 3
      = Ok (ones_row_major [[0; 1; 0]; [0; 0; 1]; [0; 0; 0]] 3) /\
    createTransClosure alloc_always
      (S (missing (cities (ones_row_major [[0; 1; 0]; [0; 0; 1]; [0; 0; 0]] 3))
                  (ones_row_major [[0; 1; 0]; [0; 0; 1]; [0; 0; 0]] 3)))
      (ones_row_major [[0; 1; 0]; [0; 0; 1]; [0; 0; 0]] 3) = Ok R /\
    NoDup R /\ irreflexive R /\
    (forall a b, In (a, b) R <->
       a <> b /\
       reachable (ones_row_major [[0; 1; 0]; [0; 0; 1]; [0; 0; 0]] 3) a b).
Proof.
  assert (Hsq : square [[0; 1; 0]; [0; 0; 1]; [0; 0; 0]] 3).
  { split; [reflexivity |]. repeat constructor. }
  assert (Hd : forall i, cell [[0; 1; 0]; [0; 0; 1]; [0; 0; 0]] i i <> Some 1).
  { intros [| [| [| i]]]; try discriminate.
    unfold cell. cbn [nth_error]. destruct i; discriminate. }
  split; [exact Hsq |]. split; [exact Hd |].
  exact (matrix_closure [[0; 1; 0]; [0; 0; 1]; [0; 0; 0]] 3 Hsq Hd).
Defined.
